(** * Beam sizing engine ([core_engine.py]): model and verified properties

    The engine searches the smallest depth of a rectangular beam whose bending
    stress stays strictly below the allowable stress of the chosen material,
    and re-runs the search after a simulated sensor reading. Of the dashboard
    ([streamlit_app.py]) the arguments of the load slider and the risk test
    on the recalibrated design are modelled; its widgets and charts are not.

    Numeric models.  The program computes with binary64 numbers ([float] and
    [np.float64]).  The engine is embedded twice.

    - [Binary64] is the engine over binary64 numbers themselves (Rocq's
      primitive floats), operation for operation: the grid of [np.arange],
      the rounding of [round] on a numpy scalar, the [OverflowError] of
      [span ** 2], rounding error, overflow, underflow, signed zeros,
      infinities and NaN are those of the program.  The properties that
      depend on the values computed are stated and proved over it, in
      [Binary64Facts].

    - The definitions outside of [Binary64] idealise finite values as exact
      rationals: rounding error, overflow and underflow are outside of that
      model, and zero carries no sign.  What numpy does with a zero divisor
      is kept: a division of [np.float64] values never raises, it yields an
      infinity or a NaN, and comparisons with NaN are false.  This model
      carries the order properties, which compare the results of two runs,
      and the recalibration and the dashboard. *)

From Stdlib Require Import QArith Qround Qabs Lia Lra Psatz.
From Stdlib Require Import Floats.
From stdpp Require Import base list gmap strings.

(* A decimal literal denotes the nearest binary64 number, as in the source. *)
Set Warnings "-inexact-float".

Local Open Scope Q_scope.

(** ** Binary64 values, idealised *)

Module Float64.

Inductive float64 : Type :=
| Fin (q : Q)
| PosInf
| NegInf
| NaN.

(** Equality of values: rationals are compared by [Qeq]. *)
Definition feq (x y : float64) : Prop :=
  match x, y with
  | Fin a, Fin b => a == b
  | PosInf, PosInf | NegInf, NegInf | NaN, NaN => True
  | _, _ => False
  end.

(** [x < y] as the interpreter evaluates it; false when a side is NaN. *)
Definition fltb (x y : float64) : bool :=
  match x, y with
  | NaN, _ | _, NaN => false
  | Fin a, Fin b => match Qcompare a b with Lt => true | _ => false end
  | NegInf, (Fin _ | PosInf) => true
  | Fin _, PosInf => true
  | _, _ => false
  end.

(** [x <= y], likewise. *)
Definition fleb (x y : float64) : bool :=
  match x, y with
  | NaN, _ | _, NaN => false
  | Fin a, Fin b => match Qcompare a b with Gt => false | _ => true end
  | NegInf, _ => true
  | _, PosInf => true
  | _, _ => false
  end.

Definition flt (x y : float64) : Prop := fltb x y = true.
Definition fle (x y : float64) : Prop := fleb x y = true.

(** numpy's true division. A zero divisor gives an infinity of the sign of
    the dividend, or NaN for [0 / 0]; nothing is raised. *)
Definition fdiv (x y : float64) : float64 :=
  match x, y with
  | NaN, _ | _, NaN => NaN
  | Fin a, Fin b =>
      if Qeq_bool b 0
      then match Qcompare a 0 with Gt => PosInf | Lt => NegInf | Eq => NaN end
      else Fin (a / b)
  | Fin _, (PosInf | NegInf) => Fin 0
  | PosInf, Fin b => if Qle_bool 0 b then PosInf else NegInf
  | NegInf, Fin b => if Qle_bool 0 b then NegInf else PosInf
  | (PosInf | NegInf), (PosInf | NegInf) => NaN
  end.

(** Round half to even, to an integer. *)
Definition rint (q : Q) : Z :=
  let f := Qfloor q in
  match Qcompare (q - inject_Z f) (1 # 2) with
  | Lt => f
  | Gt => (f + 1)%Z
  | Eq => if Z.even f then f else (f + 1)%Z
  end.

(** [round(x, ndigits)] on a finite value: scale by [10^ndigits], round
    half to even, scale back. *)
Definition round_Q (q : Q) (ndigits : nat) : Q :=
  let p := inject_Z (10 ^ Z.of_nat ndigits) in
  inject_Z (rint (q * p)) / p.

(** Infinities and NaN are returned unchanged. *)
Definition round (x : float64) (ndigits : nat) : float64 :=
  match x with
  | Fin q => Fin (round_Q q ndigits)
  | _ => x
  end.

(** [np.arange(start, stop, step)] for a positive step:
    [ceil((stop - start) / step)] values [start + i * step], exactly. The
    values that numpy computes in binary64 are those of [Binary64.np_arange]. *)
Definition np_arange (start stop step : Q) : list Q :=
  let n := Qceiling ((stop - start) / step) in
  (fun i : Z => start + inject_Z i * step) <$> seqZ 0 n.

End Float64.
Export Float64.

Declare Scope float64_scope.
Delimit Scope float64_scope with f64.
Infix "==" := feq (at level 70, no associativity) : float64_scope.
Infix "<" := flt : float64_scope.
Infix "<=" := fle : float64_scope.

(** ** Exceptions and results *)

(** Exact arithmetic does not overflow: the [OverflowError] of [span ** 2] is
    an error of [Binary64] only. *)
Inductive exn : Type :=
| KeyError (key : string).

Inductive result (A : Type) : Type :=
| Return (a : A)
| Raise (e : exn).
Arguments Return {A} a.
Arguments Raise {A} e.

(** ** Material properties database *)

Record material : Type := {
  allowable_stress : Q;   (* Pa *)
  cost_per_m3 : Q         (* per cubic metre *)
}.

Definition Concrete : material :=
  {| allowable_stress := 5e6; cost_per_m3 := 5000 |}.

Definition Steel : material :=
  {| allowable_stress := 250e6; cost_per_m3 := 60000 |}.

Definition MATERIALS : gmap string material :=
  <["Concrete" := Concrete]> (<["Steel" := Steel]> ∅).

(** ** Structural calculations *)

(** M = w L^2 / 8 *)
Definition calculate_bending_moment (load_per_m span : Q) : Q :=
  (load_per_m * span ^ 2) / 8.

(** Z = b d^2 / 6 *)
Definition calculate_section_modulus (width depth : Q) : Q :=
  (width * depth ^ 2) / 6.

(** sigma = M / Z; inside the engine the divisor is an [np.float64]. *)
Definition calculate_stress (moment section_modulus : Q) : float64 :=
  fdiv (Fin moment) (Fin section_modulus).

(** ** Generative design engine *)

Record Design : Type := {
  depth : float64;
  stress : float64;
  cost : float64;
  safety_factor : float64
}.

(** The dictionary built for a depth that passed the stress test. *)
Definition solution (span width : Q) (mat : material) (d : Q) (sigma : float64)
  : Design :=
  let volume := width * d * span in
  let cost := volume * cost_per_m3 mat in
  let safety_factor := fdiv (Fin (allowable_stress mat)) sigma in
  {| depth := round (Fin d) 3;
     stress := round sigma 2;
     cost := round (Fin cost) 2;
     safety_factor := round safety_factor 2 |}.

(** The stress of the section of depth [d] under [moment]. *)
Definition stress_at (width moment d : Q) : float64 :=
  calculate_stress moment (calculate_section_modulus width d).

(** The [for] loop: the first depth whose stress is below the allowable
    stress ends the loop; [None] when the depths are exhausted. *)
Fixpoint scan (span width : Q) (mat : material) (moment : Q) (depths : list Q)
  : option Design :=
  match depths with
  | [] => None
  | d :: rest =>
      let sigma := stress_at width moment d in
      if fltb sigma (Fin (allowable_stress mat))
      then Some (solution span width mat d sigma)
      else scan span width mat moment rest
  end.

(** The test of the loop at depth [d]. *)
Definition passes (width : Q) (mat : material) (moment d : Q) : bool :=
  fltb (stress_at width moment d) (Fin (allowable_stress mat)).

(** Depths tried: from 0.2 m to 1.0 m. *)
Definition depths : list Q := np_arange 0.2 1.0 0.01.

(** The width a caller gets when it passes none. *)
Definition default_width : Q := 0.3.

(** Returns optimal depth, cost, and safety factor; [KeyError] for a material
    that the database does not hold. *)
Definition optimize_beam (span load_per_m : Q) (name : string) (width : Q)
  : result (option Design) :=
  match MATERIALS !! name with
  | None => Raise (KeyError name)
  | Some mat =>
      let moment := calculate_bending_moment load_per_m span in
      Return (scan span width mat moment depths)
  end.

(** ** The world around the engine: random draws and console output *)

(** The line feed that starts the printed headers. *)
Definition LF : string := String (Ascii.ascii_of_nat 10) EmptyString.

(** One argument of a [print] call. *)
Inductive item : Type :=
| Str (s : string)
| Num (x : Q)
| Dict (d : option Design).

(** [uniform_draws] are the values in [0, 1) the generator will produce, in
    order; [drawn] counts those already consumed. [stdout] holds the printed
    lines, oldest first. *)
Record world : Type := {
  uniform_draws : nat -> Q;
  drawn : nat;
  stdout : list (list item)
}.

(** Computations that read and change the world and may raise. *)
Definition M (A : Type) : Type := world -> result A * world.

#[global] Instance M_ret : MRet M := fun A a w => (Return a, w).

#[global] Instance M_bind : MBind M := fun A B f m w =>
  match m w with
  | (Return a, w') => f a w'
  | (Raise e, w') => (Raise e, w')
  end.

(** A pure call that may raise. *)
Definition call {A : Type} (r : result A) : M A := fun w => (r, w).

Definition print (line : list item) : M unit := fun w =>
  (Return tt,
   {| uniform_draws := uniform_draws w; drawn := drawn w;
      stdout := stdout w ++ [line] |}).

(** [np.random.uniform(low, high)] *)
Definition np_random_uniform (low high : Q) : M Q := fun w =>
  (Return (low + (high - low) * uniform_draws w (drawn w)),
   {| uniform_draws := uniform_draws w; drawn := S (drawn w);
      stdout := stdout w |}).

(** ** Sensor simulation *)

(** Simulates real site load variation (+-20%) *)
Definition simulate_sensor_load (expected_load : Q) : M Q :=
  variation ← np_random_uniform (-0.2) 0.2;
  let actual_load := expected_load * (1 + variation) in
  mret (round_Q actual_load 2).

(** ** Recalibration engine *)

Definition recalibrate_design (span expected_load : Q) (name : string) (width : Q)
  : M (option Design * option Design) :=
  print [Str (LF ++ "--- Initial Design ---")];;
  initial_design ← call (optimize_beam span expected_load name width);
  print [Dict initial_design];;
  actual_load ← simulate_sensor_load expected_load;
  print [Str (LF ++ "Sensor detected load:"); Num actual_load; Str "N/m"];;
  print [Str (LF ++ "--- Recalibrated Design ---")];;
  updated_design ← call (optimize_beam span actual_load name width);
  print [Dict updated_design];;
  mret (initial_design, updated_design).

(** A world whose generator always produces [u], with an empty console. *)
Definition world_of (u : Q) : world :=
  {| uniform_draws := fun _ => u; drawn := 0; stdout := [] |}.

(** ** The dashboard ([streamlit_app.py]) *)

(** [int(x)] on a number: truncation toward zero. *)
Definition int (q : Q) : Z := Z.quot (Qnum q) (Z.pos (Qden q)).

(** The arguments of the "Actual Load Detected" slider. *)
Record slider_args : Type := {
  min_value : Z;
  max_value : Z;
  value : Z
}.

Definition load_slider (expected_load : Q) : slider_args :=
  {| min_value := int (expected_load * 0.5);
     max_value := int (expected_load * 1.5);
     value := int expected_load |}.

(** The banner of the risk indicator. *)
Inductive banner : Type :=
| st_error (body : string)
| st_success (body : string).

Definition risk_detected : banner := st_error "⚠ Structural Risk Detected!".
Definition within_safe_limits : banner :=
  st_success "✅ Structure Within Safe Limits".

(** The risk indicator: nothing is shown without a design; a safety factor
    below 1.5 shows the error banner, any other the success banner. *)
Definition risk_indicator (updated_design : option Design) : option banner :=
  match updated_design with
  | Some D =>
      if fltb (safety_factor D) (Fin 1.5)
      then Some risk_detected
      else Some within_safe_limits
  | None => None
  end.

(** The recalibration of the dashboard: the design for the slider's load, at
    the default width, and the banner shown for it. *)
Definition recalibration_banner (span : Q) (actual_load : Z) (name : string)
  : result (option banner) :=
  match optimize_beam span (inject_Z actual_load) name default_width with
  | Return updated_design => Return (risk_indicator updated_design)
  | Raise e => Raise e
  end.

(** ** The engine in binary64 arithmetic

    The same functions over Rocq's primitive binary64 numbers, operation for
    operation as the interpreter and numpy evaluate them: every product,
    quotient, sum and comparison is the IEEE 754 one, [x ** 2] on a Python
    float raises [OverflowError] when a finite [x] has an infinite square,
    a numpy division by zero yields an infinity or a NaN, and
    [round(x, n)] on a numpy scalar is [rint(x * 10^n) / 10^n].  A square
    [x ** 2] is taken to be the correctly rounded product [x * x]. *)

Module Binary64.

Local Open Scope float_scope.

Inductive exn : Type :=
| KeyError (key : string)
| OverflowError.

Inductive result (A : Type) : Type :=
| Return (a : A)
| Raise (e : exn).
Arguments Return {A} a.
Arguments Raise {A} e.

Definition bind {A B : Type} (r : result A) (k : A -> result B) : result B :=
  match r with
  | Return a => k a
  | Raise e => Raise e
  end.

(** *** numpy and interpreter primitives *)

(** [x ** 2] on a Python float. *)
Definition float_pow2 (x : float) : result float :=
  let y := x * x in
  if is_finite x && is_infinity y then Raise OverflowError else Return y.

(** [rint]: the nearest integer, ties to even, with the sign of the operand;
    NaN, the infinities and the zeros are returned as they are. From 2^52 on
    in magnitude every number is an integer; below, adding and removing 2^52
    rounds the magnitude to an integer. *)
Definition two52 : float := 0x1p52.

Definition rint (x : float) : float :=
  if is_nan x then x
  else if two52 <=? abs x then x
  else if x =? 0 then x
  else
    let r := abs ((abs x + two52) - two52) in
    if x <? 0 then - r else r.

(** [10 ** n] as numpy's [power_of_ten] gives it. *)
Definition power_of_ten (n : nat) : float :=
  of_uint63 (Uint63Axioms.of_Z (10 ^ Z.of_nat n)).

(** [round(x, ndigits)] on an [np.float64]: multiply, [rint], divide. *)
Definition round (x : float) (ndigits : nat) : float :=
  rint (x * power_of_ten ndigits) / power_of_ten ndigits.

(** The ceiling of a finite number, as an integer. *)
Definition ceil (x : float) : Z :=
  match Prim2SF x with
  | S754_finite s m e =>
      let v := if s then Z.neg m else Z.pos m in
      match e with
      | Z.neg k => (- ((- v) / 2 ^ Z.pos k))%Z
      | _ => (v * 2 ^ e)%Z
      end
  | _ => 0%Z
  end.

(** [np.arange(start, stop, step)]: [ceil((stop - start) / step)] values; the
    second is [start + step], and the value of index [i] is
    [start + i * delta] where [delta] is the second minus the first. *)
Definition np_arange (start stop step : float) : list float :=
  let n := ceil ((stop - start) / step) in
  let delta := (start + step) - start in
  (fun i : Z => start + of_uint63 (Uint63Axioms.of_Z i) * delta) <$> seqZ 0 n.

(** *** Material properties database *)

Record material : Type := {
  allowable_stress : float;   (* Pa *)
  cost_per_m3 : float         (* per cubic metre *)
}.

Definition Concrete : material :=
  {| allowable_stress := 5e6; cost_per_m3 := 5000 |}.

Definition Steel : material :=
  {| allowable_stress := 250e6; cost_per_m3 := 60000 |}.

Definition MATERIALS : gmap string material :=
  <["Concrete" := Concrete]> (<["Steel" := Steel]> ∅).

(** *** Structural calculations *)

(** M = w L^2 / 8 *)
Definition calculate_bending_moment (load_per_m span : float) : result float :=
  bind (float_pow2 span) (fun span2 => Return ((load_per_m * span2) / 8)).

(** Z = b d^2 / 6; the depth is an [np.float64], whose square never raises. *)
Definition calculate_section_modulus (width depth : float) : float :=
  (width * (depth * depth)) / 6.

(** sigma = M / Z *)
Definition calculate_stress (moment section_modulus : float) : float :=
  moment / section_modulus.

(** *** Generative design engine *)

Record Design : Type := {
  depth : float;
  stress : float;
  cost : float;
  safety_factor : float
}.

Definition solution (span width : float) (mat : material) (d sigma : float)
  : Design :=
  let volume := (width * d) * span in
  let cost := volume * cost_per_m3 mat in
  let safety_factor := allowable_stress mat / sigma in
  {| depth := round d 3;
     stress := round sigma 2;
     cost := round cost 2;
     safety_factor := round safety_factor 2 |}.

Definition stress_at (width moment d : float) : float :=
  calculate_stress moment (calculate_section_modulus width d).

(** The test of the loop at depth [d]. *)
Definition passes (width : float) (mat : material) (moment d : float) : bool :=
  stress_at width moment d <? allowable_stress mat.

(** The [for] loop with its [break]. *)
Fixpoint scan (span width : float) (mat : material) (moment : float)
    (depths : list float) : option Design :=
  match depths with
  | [] => None
  | d :: rest =>
      let sigma := stress_at width moment d in
      if sigma <? allowable_stress mat
      then Some (solution span width mat d sigma)
      else scan span width mat moment rest
  end.

Definition depths : list float := np_arange 0.2 1.0 0.01.

Definition default_width : float := 0.3.

Definition optimize_beam (span load_per_m : float) (name : string) (width : float)
  : result (option Design) :=
  match MATERIALS !! name with
  | None => Raise (KeyError name)
  | Some mat =>
      bind (calculate_bending_moment load_per_m span) (fun moment =>
      Return (scan span width mat moment depths))
  end.

(** The moment that [calculate_bending_moment] returns when the square of
    the span has not overflowed. *)
Definition moment_value (load_per_m span : float) : float :=
  (load_per_m * (span * span)) / 8.

(** *** Checks on lists of numbers *)

(** Every element is strictly below all the later ones. *)
Fixpoint ascending (l : list float) : bool :=
  match l with
  | [] => true
  | a :: rest => forallb (fun b => a <? b) rest && ascending rest
  end.

(** Positive and finite. *)
Definition pos_finiteb (x : float) : bool := (0 <? x) && (x <? infinity).

(** A positive finite number of magnitude at least [k]: its mantissa and
    exponent [m], [e] have [digits m + e >= k], so that it is at least
    [2^(k-1)]. *)
Definition magnitude_geb (k : Z) (x : float) : bool :=
  match Prim2SF x with
  | S754_finite false m e => (k <=? Zdigits2 (Z.pos m) + e)%Z
  | _ => false
  end.

(** *** Sign of a value *)

(** The sign bit of a number: [Some true] for a negative number, infinity or
    zero, [Some false] for a positive one, [None] for a NaN. *)
Definition SFsign (x : spec_float) : option bool :=
  match x with
  | S754_zero s | S754_infinity s | S754_finite s _ _ => Some s
  | S754_nan => None
  end.

Definition fsign (x : float) : option bool := SFsign (Prim2SF x).

(** A NaN, or a number of sign [s]. *)
Definition sign_or_nan (s : bool) (x : float) : Prop :=
  fsign x = None \/ fsign x = Some s.

End Binary64.

Example optimize_steel :
  optimize_beam 5 20000 "Steel" 0.3
  = Return (Some {| depth := Fin (200 / 1000); stress := Fin (3125000000 / 100);
                    cost := Fin (1800000 / 100); safety_factor := Fin (800 / 100) |}).
Proof. vm_compute. reflexivity. Qed.

(** * Properties *)

(** ** Comparison, division and rounding of values *)

Section Float64Facts.

Lemma fltb_Fin (a b : Q) : fltb (Fin a) (Fin b) = true <-> a < b.
Proof.
  simpl. rewrite Qlt_alt. destruct (Qcompare a b); split; congruence.
Qed.

Lemma fleb_Fin (a b : Q) : fleb (Fin a) (Fin b) = true <-> a <= b.
Proof.
  simpl. rewrite Qle_alt. destruct (Qcompare a b); split; congruence.
Qed.

Lemma fdiv_Fin (a b : Q) : ~ b == 0 -> fdiv (Fin a) (Fin b) = Fin (a / b).
Proof.
  intros Hb. simpl. destruct (Qeq_bool b 0) eqn:E; [|reflexivity].
  apply Qeq_bool_eq in E. contradiction.
Qed.

Lemma fdiv_pos_zero (a b : Q) : 0 < a -> b == 0 -> fdiv (Fin a) (Fin b) = PosInf.
Proof.
  intros Ha Hb. simpl. rewrite (Qeq_eq_bool _ _ Hb).
  apply Qgt_alt in Ha. rewrite Ha. reflexivity.
Qed.

Lemma rint_ge (n : Z) (x : Q) : inject_Z n <= x -> (n <= rint x)%Z.
Proof.
  intros H. assert (Hf : (n <= Qfloor x)%Z).
  { rewrite <- (Qfloor_Z n). apply Qfloor_resp_le, H. }
  unfold rint. destruct (Qcompare _ _); [destruct (Z.even _)| |]; lia.
Qed.

Lemma rint_le (n : Z) (x : Q) : x <= inject_Z n -> (rint x <= n)%Z.
Proof.
  intros H. assert (Hf : (Qfloor x <= n)%Z).
  { rewrite <- (Qfloor_Z n). apply Qfloor_resp_le, H. }
  destruct (Z.eq_dec (Qfloor x) n) as [E|E].
  - assert (Hx : x == inject_Z n).
    { apply Qle_antisym; [exact H|]. rewrite <- E. apply Qfloor_le. }
    unfold rint. rewrite E.
    assert (Hc : Qcompare (x - inject_Z n) (1 # 2) = Lt).
    { rewrite <- Qlt_alt. lra. }
    rewrite Hc. lia.
  - unfold rint. destruct (Qcompare _ _); [destruct (Z.even _)| |]; lia.
Qed.

Lemma pow10_pos (ndigits : nat) : 0 < inject_Z (10 ^ Z.of_nat ndigits).
Proof.
  change 0 with (inject_Z 0). rewrite <- Zlt_Qlt.
  apply Z.pow_pos_nonneg; lia.
Qed.

(** Rounding never crosses an integer. *)
Lemma round_Q_ge (n : Z) (q : Q) (ndigits : nat) :
  inject_Z n <= q -> inject_Z n <= round_Q q ndigits.
Proof.
  intros H. unfold round_Q.
  pose proof (pow10_pos ndigits) as Hp.
  set (p := (10 ^ Z.of_nat ndigits)%Z) in *.
  apply Qle_shift_div_l; [exact Hp|].
  rewrite <- inject_Z_mult, <- Zle_Qle. apply rint_ge.
  rewrite inject_Z_mult. apply Qmult_le_compat_r; [exact H|]. lra.
Qed.

Lemma round_Q_le (n : Z) (q : Q) (ndigits : nat) :
  q <= inject_Z n -> round_Q q ndigits <= inject_Z n.
Proof.
  intros H. unfold round_Q.
  pose proof (pow10_pos ndigits) as Hp.
  set (p := (10 ^ Z.of_nat ndigits)%Z) in *.
  apply Qle_shift_div_r; [exact Hp|].
  rewrite <- inject_Z_mult, <- Zle_Qle. apply rint_le.
  rewrite inject_Z_mult. apply Qmult_le_compat_r; [exact H|]. lra.
Qed.

End Float64Facts.

(** ** The depths tried *)

Section Depths.

Lemma depths_lookup (i : nat) (d : Q) :
  depths !! i = Some d ->
  (i < 80)%nat /\ d = 0.2 + inject_Z (Z.of_nat i) * 0.01.
Proof.
  change depths with ((fun i : Z => 0.2 + inject_Z i * 0.01) <$> seqZ 0 80).
  rewrite list_lookup_fmap. intros H.
  destruct (seqZ 0 80 !! i) as [k|] eqn:E; [|discriminate].
  apply lookup_seqZ in E as [-> Hi]. simpl in H.
  injection H as <-. split; [lia|]. rewrite Z.add_0_l. reflexivity.
Qed.

Lemma depths_elem (d : Q) :
  d ∈ depths ->
  exists i : nat, (i < 80)%nat /\ d = 0.2 + inject_Z (Z.of_nat i) * 0.01.
Proof.
  intros [i Hi]%list_elem_of_lookup. exists i. apply depths_lookup, Hi.
Qed.

Lemma depths_bounds (d : Q) : d ∈ depths -> 0.2 <= d /\ d <= 0.99.
Proof.
  intros (i & Hi & ->)%depths_elem.
  assert (H0 : inject_Z 0 <= inject_Z (Z.of_nat i)) by (rewrite <- Zle_Qle; lia).
  assert (H1 : inject_Z (Z.of_nat i) <= inject_Z 79) by (rewrite <- Zle_Qle; lia).
  change (inject_Z 0) with 0 in H0. change (inject_Z 79) with 79 in H1.
  split; lra.
Qed.

Lemma depths_pos (d : Q) : d ∈ depths -> 0 < d.
Proof. intros [H _]%depths_bounds. lra. Qed.

(** The sequence is ascending. *)
Lemma depths_ascending (i j : nat) (di dj : Q) :
  depths !! i = Some di -> depths !! j = Some dj -> (i <= j)%nat -> di <= dj.
Proof.
  intros [_ ->]%depths_lookup [_ ->]%depths_lookup Hij.
  assert (H : inject_Z (Z.of_nat i) <= inject_Z (Z.of_nat j))
    by (rewrite <- Zle_Qle; lia).
  lra.
Qed.

Lemma rint_inject_Z (x : Q) (n : Z) : x == inject_Z n -> rint x = n.
Proof.
  intros H. apply Z.le_antisymm.
  - apply rint_le. rewrite H. apply Qle_refl.
  - apply rint_ge. rewrite H. apply Qle_refl.
Qed.

(** Every depth tried has at most two decimals, so rounding it to three
    changes nothing. *)
Lemma depths_round (d : Q) : d ∈ depths -> round_Q d 3 == d.
Proof.
  intros (i & Hi & ->)%depths_elem. unfold round_Q.
  set (k := Z.of_nat i).
  rewrite (rint_inject_Z _ (200 + 10 * k)%Z).
  - rewrite inject_Z_plus, inject_Z_mult.
    change (inject_Z (10 ^ Z.of_nat 3)) with 1000.
    change (inject_Z 200) with 200. change (inject_Z 10) with 10. field.
  - rewrite inject_Z_plus, inject_Z_mult.
    change (inject_Z (10 ^ Z.of_nat 3)) with 1000.
    change (inject_Z 200) with 200. change (inject_Z 10) with 10. field.
Qed.

End Depths.

(** ** The loop *)

Section Scan.

Variables (span width : Q) (mat : material) (moment : Q).

Abbreviation ok := (passes width mat moment).
Abbreviation design d := (solution span width mat d (stress_at width moment d)).

Lemma scan_None_iff (ds : list Q) :
  scan span width mat moment ds = None <-> forall d, d ∈ ds -> ok d = false.
Proof.
  induction ds as [|c ds IH]; simpl.
  - split; [|reflexivity]. intros _ d Hd. inversion Hd.
  - fold (passes width mat moment c). destruct (ok c) eqn:E.
    + split; [discriminate|]. intros H.
      rewrite (H c) in E by apply list_elem_of_here. discriminate.
    + rewrite IH. split.
      * intros H d [->|Hd]%elem_of_cons; auto.
      * intros H d Hd. apply H, list_elem_of_further, Hd.
Qed.

(** The loop returns the design of the first depth that passes the test. *)
Lemma scan_Some_iff (ds : list Q) (D : Design) :
  scan span width mat moment ds = Some D <->
  exists (i : nat) (d : Q),
    ds !! i = Some d /\ ok d = true /\
    (forall (j : nat) (c : Q), (j < i)%nat -> ds !! j = Some c -> ok c = false) /\
    D = design d.
Proof.
  revert D. induction ds as [|c ds IH]; intros D; simpl.
  - split; [discriminate|]. intros (i & d & H & _). destruct i; discriminate.
  - fold (passes width mat moment c). destruct (ok c) eqn:E.
    + split.
      * intros [= <-]. exists 0%nat, c. repeat split; auto. intros j ? Hj. lia.
      * intros (i & d & Hi & Hd & Hbefore & ->). destruct i as [|i].
        -- injection Hi as <-. reflexivity.
        -- rewrite (Hbefore 0%nat c) in E by (reflexivity || lia). discriminate.
    + rewrite IH. split.
      * intros (i & d & Hi & Hd & Hbefore & ->). exists (S i), d.
        repeat split; auto. intros [|j] x Hj Hx.
        -- injection Hx as <-. exact E.
        -- apply (Hbefore j); [lia|exact Hx].
      * intros (i & d & Hi & Hd & Hbefore & ->). destruct i as [|i].
        -- injection Hi as <-. congruence.
        -- exists i, d. repeat split; auto.
           intros j x Hj Hx. apply (Hbefore (S j)); [lia|exact Hx].
Qed.

End Scan.

(** ** The catalog and the mechanics formulas *)

Section Mechanics.

Lemma MATERIALS_inv (name : string) (mat : material) :
  MATERIALS !! name = Some mat -> mat = Concrete \/ mat = Steel.
Proof.
  unfold MATERIALS. rewrite !lookup_insert_Some, lookup_empty.
  intros [[_ <-]|[_ [[_ <-]|[_ H]]]]; auto. discriminate.
Qed.

Lemma allowable_stress_pos (name : string) (mat : material) :
  MATERIALS !! name = Some mat -> 0 < allowable_stress mat.
Proof. intros [-> | ->]%MATERIALS_inv; reflexivity. Qed.

Lemma cost_per_m3_pos (name : string) (mat : material) :
  MATERIALS !! name = Some mat -> 0 < cost_per_m3 mat.
Proof. intros [-> | ->]%MATERIALS_inv; reflexivity. Qed.

Lemma section_modulus_pos (width d : Q) :
  0 < width -> 0 < d -> 0 < calculate_section_modulus width d.
Proof.
  intros Hw Hd. unfold calculate_section_modulus.
  apply Qlt_shift_div_l; [reflexivity|].
  assert (H : 0 < d ^ 2) by (simpl; nra). nra.
Qed.

Lemma stress_at_Fin (width moment d : Q) :
  0 < width -> 0 < d ->
  stress_at width moment d = Fin (moment / calculate_section_modulus width d).
Proof.
  intros Hw Hd. unfold stress_at, calculate_stress. apply fdiv_Fin.
  pose proof (section_modulus_pos width d Hw Hd). lra.
Qed.

Lemma bending_moment_pos (load span : Q) :
  0 < load -> 0 < span -> 0 < calculate_bending_moment load span.
Proof.
  intros Hl Hs. unfold calculate_bending_moment.
  apply Qlt_shift_div_l; [reflexivity|].
  assert (H : 0 < span ^ 2) by (simpl; nra). nra.
Qed.

Lemma bending_moment_mono (w1 w2 span : Q) :
  w1 <= w2 -> calculate_bending_moment w1 span <= calculate_bending_moment w2 span.
Proof.
  intros H. unfold calculate_bending_moment.
  apply Qmult_le_compat_r; [|discriminate].
  apply Qmult_le_compat_r; [exact H|]. simpl. nra.
Qed.

Lemma optimize_beam_known (span load : Q) (name : string) (width : Q) (mat : material) :
  MATERIALS !! name = Some mat ->
  optimize_beam span load name width
  = Return (scan span width mat (calculate_bending_moment load span) depths).
Proof. intros H. unfold optimize_beam. rewrite H. reflexivity. Qed.

Lemma Return_inj {A : Type} (a b : A) : Return a = Return b -> a = b.
Proof. congruence. Qed.

End Mechanics.

(** ** The optimizer *)



(** A section that carries a moment carries every smaller one. *)
Lemma passes_smaller_moment (width : Q) (mat : material) (m1 m2 d : Q) :
  0 < width -> 0 < d -> m1 <= m2 ->
  passes width mat m2 d = true -> passes width mat m1 d = true.
Proof.
  intros Hw Hd Hm. unfold passes. rewrite !stress_at_Fin by assumption.
  rewrite !fltb_Fin. apply Qle_lt_trans.
  pose proof (section_modulus_pos width d Hw Hd) as HZ.
  apply Qmult_le_compat_r; [exact Hm|].
  apply Qlt_le_weak, Qinv_lt_0_compat, HZ.
Qed.



(** ** Recalibration *)

Section Recalibration.

Lemma bind_print {A : Type} (line : list item) (k : M A) (w : world) :
  (print line;; k) w
  = k {| uniform_draws := uniform_draws w; drawn := drawn w;
         stdout := stdout w ++ [line] |}.
Proof. reflexivity. Qed.

Lemma bind_call_Return {A B : Type} (r : result A) (a : A) (k : A -> M B) (w : world) :
  r = Return a -> (x ← call r; k x) w = k a w.
Proof. intros ->. reflexivity. Qed.

Lemma bind_call_Raise {A B : Type} (r : result A) (e : exn) (k : A -> M B) (w : world) :
  r = Raise e -> (x ← call r; k x) w = (Raise e, w).
Proof. intros ->. reflexivity. Qed.

Lemma bind_simulate_sensor_load {B : Type} (expected_load : Q) (k : Q -> M B) (w : world) :
  (x ← simulate_sensor_load expected_load; k x) w
  = k (round_Q (expected_load
                * (1 + (-0.2 + (0.2 - -0.2) * uniform_draws w (drawn w)))) 2)
      {| uniform_draws := uniform_draws w; drawn := S (drawn w);
         stdout := stdout w |}.
Proof. reflexivity. Qed.

End Recalibration.




(** An unknown material aborts the recalibration at the first call: only the
    first header has been printed and nothing has been drawn. *)
Lemma recalibrate_design_unknown_material
    (span expected_load : Q) (name : string) (width : Q) (w : world) :
  MATERIALS !! name = None ->
  recalibrate_design span expected_load name width w
  = (Raise (KeyError name),
     {| uniform_draws := uniform_draws w; drawn := drawn w;
        stdout := stdout w ++ [ [Str (LF ++ "--- Initial Design ---")] ] |}).
Proof.
  intros H. unfold recalibrate_design. rewrite bind_print.
  apply bind_call_Raise. unfold optimize_beam. rewrite H. reflexivity.
Qed.

(** * Further properties of the engine *)

(** ** Rounding: order and error *)

Section Rounding.

Lemma Qcompare_spec (a b : Q) :
  match Qcompare a b with
  | Lt => a < b
  | Eq => a == b
  | Gt => b < a
  end.
Proof.
  destruct (Qcompare a b) eqn:E.
  - apply Qeq_alt, E.
  - apply Qlt_alt, E.
  - apply Qgt_alt, E.
Qed.

Lemma rint_floor (x : Q) : (Qfloor x <= rint x <= Qfloor x + 1)%Z.
Proof.
  unfold rint. destruct (Qcompare _ _); [destruct (Z.even _)| |]; lia.
Qed.

Lemma rint_mono (x y : Q) : x <= y -> (rint x <= rint y)%Z.
Proof.
  intros Hxy. pose proof (Qfloor_resp_le x y Hxy) as Hf.
  destruct (Z.eq_dec (Qfloor x) (Qfloor y)) as [E|E].
  - unfold rint. rewrite <- E.
    pose proof (Qcompare_spec (x - inject_Z (Qfloor x)) (1 # 2)) as Hx.
    pose proof (Qcompare_spec (y - inject_Z (Qfloor x)) (1 # 2)) as Hy.
    destruct (Qcompare (x - _) _), (Qcompare (y - _) _);
      try destruct (Z.even _); try lia; lra.
  - pose proof (rint_floor x). pose proof (rint_floor y). lia.
Qed.

Lemma round_Q_mono (x y : Q) (ndigits : nat) :
  x <= y -> round_Q x ndigits <= round_Q y ndigits.
Proof.
  intros Hxy. unfold round_Q. pose proof (pow10_pos ndigits) as Hp.
  set (p := inject_Z (10 ^ Z.of_nat ndigits)) in *.
  apply Qmult_le_compat_r; [|apply Qlt_le_weak, Qinv_lt_0_compat, Hp].
  rewrite <- Zle_Qle. apply rint_mono.
  apply Qmult_le_compat_r; [exact Hxy|lra].
Qed.

End Rounding.

(** ** The stress test as an inequality between moments *)

Section Threshold.

Lemma section_modulus_Qeq (width d1 d2 : Q) :
  d1 == d2 ->
  calculate_section_modulus width d1 == calculate_section_modulus width d2.
Proof. intros E. unfold calculate_section_modulus. rewrite E. reflexivity. Qed.

Lemma section_modulus_mono_depth (width d1 d2 : Q) :
  0 < width -> 0 < d1 -> d1 <= d2 ->
  calculate_section_modulus width d1 <= calculate_section_modulus width d2.
Proof.
  intros Hw Hd Hle. unfold calculate_section_modulus.
  apply Qmult_le_compat_r; [|discriminate].
  apply Qmult_le_l; [exact Hw|]. simpl. nra.
Qed.

Lemma section_modulus_mono_width (w1 w2 d : Q) :
  w1 <= w2 ->
  calculate_section_modulus w1 d <= calculate_section_modulus w2 d.
Proof.
  intros Hle. unfold calculate_section_modulus.
  apply Qmult_le_compat_r; [|discriminate].
  apply Qmult_le_compat_r; [exact Hle|]. simpl. nra.
Qed.

(** With a positive width, a depth passes the test exactly when the moment is
    below the moment capacity [allowable stress * section modulus]. *)
Lemma passes_iff (width : Q) (mat : material) (moment d : Q) :
  0 < width -> 0 < d ->
  passes width mat moment d = true <->
  moment < allowable_stress mat * calculate_section_modulus width d.
Proof.
  intros Hw Hd. unfold passes. rewrite (stress_at_Fin _ _ _ Hw Hd), fltb_Fin.
  pose proof (section_modulus_pos width d Hw Hd) as HZ. split.
  - intros H. apply (Qmult_lt_r _ _ _ HZ) in H.
    assert (E : moment / calculate_section_modulus width d
                * calculate_section_modulus width d == moment) by (field; lra).
    rewrite E in H. exact H.
  - intros H. apply Qlt_shift_div_r; auto.
Qed.

Lemma passes_false_iff (width : Q) (mat : material) (moment d : Q) :
  0 < width -> 0 < d ->
  passes width mat moment d = false <->
  allowable_stress mat * calculate_section_modulus width d <= moment.
Proof.
  intros Hw Hd. rewrite <- not_true_iff_false, (passes_iff _ _ _ _ Hw Hd). split.
  - apply Qnot_lt_le.
  - apply Qle_not_lt.
Qed.

(** A larger allowable stress keeps every depth that passed, whatever the
    stress is (finite or not). *)
Lemma fltb_larger_bound (x : float64) (a b : Q) :
  a <= b -> fltb x (Fin a) = true -> fltb x (Fin b) = true.
Proof.
  intros Hab. destruct x as [s| | |]; try (simpl; congruence).
  rewrite !fltb_Fin. intros H. apply Qlt_le_trans with (1 := H), Hab.
Qed.

End Threshold.

(** ** Comparing two searches *)

Section Comparison.

(** When every depth that passes the test of search A passes the test of
    search B, search B stops no later than search A. *)
Lemma scan_dominated
    (sA wA : Q) (matA : material) (mA : Q)
    (sB wB : Q) (matB : material) (mB : Q) (ds : list Q) (DA : Design) :
  (forall d, d ∈ ds -> passes wA matA mA d = true -> passes wB matB mB d = true) ->
  scan sA wA matA mA ds = Some DA ->
  exists (iA iB : nat) (dA dB : Q),
    ds !! iA = Some dA /\ ds !! iB = Some dB /\ (iB <= iA)%nat /\
    DA = solution sA wA matA dA (stress_at wA mA dA) /\
    scan sB wB matB mB ds = Some (solution sB wB matB dB (stress_at wB mB dB)).
Proof.
  intros Hdom (iA & dA & HiA & HokA & _ & ->)%scan_Some_iff.
  assert (HdA : dA ∈ ds) by (apply list_elem_of_lookup; eauto).
  pose proof (Hdom dA HdA HokA) as HokB.
  destruct (scan sB wB matB mB ds) as [DB|] eqn:EB.
  - apply scan_Some_iff in EB as (iB & dB & HiB & _ & Hbefore & ->).
    exists iA, iB, dA, dB. repeat split; auto.
    destruct (Nat.lt_ge_cases iA iB) as [Hlt|Hge]; [|exact Hge].
    rewrite (Hbefore iA dA Hlt HiA) in HokB. discriminate.
  - rewrite scan_None_iff in EB. rewrite (EB dA HdA) in HokB. discriminate.
Qed.

Lemma first_depth_le
    (sA wA : Q) (matA : material) (mA : Q)
    (sB wB : Q) (matB : material) (mB : Q) (DA : Design) :
  (forall d, d ∈ depths -> passes wA matA mA d = true -> passes wB matB mB d = true) ->
  scan sA wA matA mA depths = Some DA ->
  exists dA dB : Q,
    dA ∈ depths /\ dB ∈ depths /\ dB <= dA /\
    DA = solution sA wA matA dA (stress_at wA mA dA) /\
    scan sB wB matB mB depths = Some (solution sB wB matB dB (stress_at wB mB dB)).
Proof.
  intros Hdom HA.
  destruct (scan_dominated sA wA matA mA sB wB matB mB depths DA Hdom HA)
    as (iA & iB & dA & dB & HiA & HiB & Hle & -> & HB).
  exists dA, dB. repeat split; auto.
  - apply list_elem_of_lookup; eauto.
  - apply list_elem_of_lookup; eauto.
  - exact (depths_ascending iB iA dB dA HiB HiA Hle).
Qed.

Lemma solution_depth_le
    (sA wA : Q) (matA : material) (xA : float64)
    (sB wB : Q) (matB : material) (xB : float64) (dA dB : Q) :
  dA ∈ depths -> dB ∈ depths -> dB <= dA ->
  (depth (solution sB wB matB dB xB) <= depth (solution sA wA matA dA xA))%f64.
Proof.
  intros HA HB Hle. unfold fle. cbn [solution depth round]. apply fleb_Fin.
  rewrite (depths_round dA HA), (depths_round dB HB). exact Hle.
Qed.

Lemma solution_cost_le
    (sA wA : Q) (matA : material) (xA : float64)
    (sB wB : Q) (matB : material) (xB : float64) (dA dB : Q) :
  wB * dB * sB * cost_per_m3 matB <= wA * dA * sA * cost_per_m3 matA ->
  (cost (solution sB wB matB dB xB) <= cost (solution sA wA matA dA xA))%f64.
Proof.
  intros Hle. unfold fle. cbn [solution cost round]. apply fleb_Fin.
  apply round_Q_mono, Hle.
Qed.

End Comparison.

(** ** Which depth is returned *)



(** The depth at which the search stops, as a bracket on the moment. *)
Lemma scan_depths_threshold (span width : Q) (mat : material) (moment : Q) (D : Design) :
  0 < width ->
  scan span width mat moment depths = Some D ->
  exists d : Q,
    d ∈ depths /\ D = solution span width mat d (stress_at width moment d) /\
    moment < allowable_stress mat * calculate_section_modulus width d /\
    (d == 0.20 \/
     0.20 <= d - 0.01 /\
     allowable_stress mat * calculate_section_modulus width (d - 0.01) <= moment).
Proof.
  intros Hw (i & d & Hi & Hok & Hbefore & ->)%scan_Some_iff.
  assert (Hd : d ∈ depths) by (apply list_elem_of_lookup; eauto).
  exists d. split; [exact Hd|]. split; [reflexivity|].
  split; [apply (passes_iff _ _ _ _ Hw (depths_pos d Hd)), Hok|].
  destruct i as [|i].
  - left. apply depths_lookup in Hi as [_ ->]. reflexivity.
  - right. pose proof (depths_lookup _ _ Hi) as [Hlt Ed].
    destruct (lookup_lt_is_Some_2 depths i) as [c Hc];
      [change (length depths) with 80%nat; lia|].
    assert (Hcd : c ∈ depths) by (apply list_elem_of_lookup; eauto).
    pose proof (depths_lookup _ _ Hc) as [_ Ec].
    assert (E : c == d - 0.01).
    { rewrite Ec, Ed, Nat2Z.inj_succ. unfold Z.succ. rewrite inject_Z_plus.
      change (inject_Z 1) with 1. ring. }
    pose proof (depths_bounds c Hcd) as [Hlo _].
    split; [rewrite <- E; lra|].
    rewrite <- (section_modulus_Qeq width c (d - 0.01) E).
    apply (passes_false_iff _ _ _ _ Hw (depths_pos c Hcd)).
    apply (Hbefore i c); [lia|exact Hc].
Qed.

(** ** How the design moves with the inputs *)



(** A smaller load is carried by a section that is no deeper and no dearer. *)
Lemma scan_monotone_in_load
    (span : Q) (name : string) (width : Q) (mat : material) (w1 w2 : Q) (D2 : Design) :
  0 < span -> 0 < width -> MATERIALS !! name = Some mat -> w1 <= w2 ->
  scan span width mat (calculate_bending_moment w2 span) depths = Some D2 ->
  exists D1 : Design,
    scan span width mat (calculate_bending_moment w1 span) depths = Some D1 /\
    (depth D1 <= depth D2)%f64 /\ (cost D1 <= cost D2)%f64.
Proof.
  intros Hs Hw Hmat Hle.
  pose proof (bending_moment_mono w1 w2 span Hle) as Hm.
  set (m1 := calculate_bending_moment w1 span) in *.
  set (m2 := calculate_bending_moment w2 span) in *. intros HD.
  destruct (first_depth_le span width mat m2 span width mat m1 D2)
    as (d2 & d1 & Hd2 & Hd1 & Hd & -> & H1); [|exact HD|].
  - intros d Hd. apply passes_smaller_moment; auto using depths_pos.
  - rewrite H1. eexists. split; [reflexivity|]. split.
    + apply solution_depth_le; assumption.
    + apply solution_cost_le.
      pose proof (cost_per_m3_pos name mat Hmat) as Hc.
      apply Qmult_le_compat_r; [|lra]. apply Qmult_le_compat_r; [|lra].
      apply Qmult_le_l; assumption.
Qed.







(** ** What a returned design reports *)



(** The safety factor of a design found past the first depth. *)
Lemma deeper_design_safety_factor
    (span width : Q) (mat : material) (moment : Q) (D : Design) :
  0 < width -> 0 < moment -> 0 < allowable_stress mat ->
  scan span width mat moment depths = Some D ->
  ~ (depth D == Fin 0.20)%f64 ->
  exists q : Q, safety_factor D = Fin (round_Q q 2) /\ q <= 1.1025.
Proof.
  intros Hw Hm Ha HD Hdeep.
  destruct (scan_depths_threshold _ _ _ _ _ Hw HD) as (d & Hd & -> & Hlt & Hprev).
  pose proof (depths_pos d Hd) as Hpos.
  destruct Hprev as [E|[Hlo Hprev]].
  { exfalso. apply Hdeep. cbn [solution depth round feq].
    rewrite (depths_round d Hd). exact E. }
  pose proof (section_modulus_pos width d Hw Hpos) as HZ.
  set (Zd := calculate_section_modulus width d) in *.
  set (sigma := moment / Zd).
  assert (Hsig : 0 < sigma) by (apply Qlt_shift_div_l; [exact HZ|lra]).
  exists (allowable_stress mat / sigma). split.
  - cbn [solution safety_factor]. rewrite (stress_at_Fin _ _ _ Hw Hpos).
    fold Zd. fold sigma. rewrite fdiv_Fin by lra. reflexivity.
  - apply Qle_shift_div_r; [exact Hsig|].
    assert (Hgrow : Zd <= 1.1025 * calculate_section_modulus width (d - 0.01)).
    { unfold Zd, calculate_section_modulus.
      assert (E : 1.1025 * (width * (d - 0.01) ^ 2 / 6)
                  == width * (1.1025 * (d - 0.01) ^ 2) / 6) by field.
      rewrite E. apply Qmult_le_compat_r; [|discriminate].
      apply Qmult_le_l; [exact Hw|]. simpl. nra. }
    assert (Hcap : allowable_stress mat * Zd <= 1.1025 * moment).
    { apply Qle_trans with
        (allowable_stress mat * (1.1025 * calculate_section_modulus width (d - 0.01))).
      - apply Qmult_le_l; assumption.
      - lra. }
    unfold sigma. apply Qle_shift_div_l with (c := Zd) in Hcap; [|exact HZ].
    apply Qle_trans with (1 := Hcap). apply Qle_lteq. right. field. lra.
Qed.

(** ** The sensor and the recalibration *)

Lemma recalibrate_design_unknown_material_witness :
  recalibrate_design 5 20000 "Wood" 0.3 (world_of (1 # 4))
  = (Raise (KeyError "Wood"),
     {| uniform_draws := uniform_draws (world_of (1 # 4));
        drawn := drawn (world_of (1 # 4));
        stdout := stdout (world_of (1 # 4))
                  ++ [ [Str (LF ++ "--- Initial Design ---")] ] |}).
Proof.
  apply (recalibrate_design_unknown_material 5 20000 "Wood" 0.3 (world_of (1 # 4))).
  reflexivity.
Defined.

(** The pair a recalibration returns, as two searches. *)
Lemma recalibrate_design_value
    (span expected_load : Q) (name : string) (width : Q) (mat : material) (w : world) :
  MATERIALS !! name = Some mat ->
  fst (recalibrate_design span expected_load name width w)
  = Return
      (scan span width mat (calculate_bending_moment expected_load span) depths,
       scan span width mat
         (calculate_bending_moment
            (round_Q (expected_load
                      * (1 + (-0.2 + (0.2 - -0.2) * uniform_draws w (drawn w)))) 2)
            span) depths).
Proof.
  intros Hmat. unfold recalibrate_design.
  rewrite bind_print.
  rewrite (bind_call_Return _ _ _ _ (optimize_beam_known _ _ _ _ _ Hmat)).
  rewrite bind_print, bind_simulate_sensor_load, !bind_print.
  rewrite (bind_call_Return _ _ _ _ (optimize_beam_known _ _ _ _ _ Hmat)).
  rewrite bind_print. reflexivity.
Qed.



(** ** The dashboard *)

Section Dashboard.

Lemma int_nonneg (q : Q) : 0 <= q -> int q = Qfloor q.
Proof.
  destruct q as [n d]. unfold Qle, int, Qfloor. simpl. intros H.
  apply Z.quot_div_nonneg; lia.
Qed.

Lemma int_nonpos (q : Q) : q <= 0 -> int q = Qceiling q.
Proof.
  destruct q as [n d]. unfold Qle, int, Qceiling, Qfloor. simpl. intros H.
  rewrite <- (Z.opp_involutive n) at 1.
  rewrite Z.quot_opp_l by lia. f_equal. apply Z.quot_div_nonneg; lia.
Qed.

(** The safety factor of any design the search returns. *)
Lemma scan_safety_factor (span width : Q) (mat : material) (moment : Q) (D : Design) :
  0 < width ->
  scan span width mat moment depths = Some D ->
  exists d : Q,
    d ∈ depths /\
    safety_factor D
    = round (fdiv (Fin (allowable_stress mat))
                  (Fin (moment / calculate_section_modulus width d))) 2.
Proof.
  intros Hw (i & d & Hi & _ & _ & ->)%scan_Some_iff.
  assert (Hd : d ∈ depths) by (apply list_elem_of_lookup; eauto).
  exists d. split; [exact Hd|]. cbn [solution safety_factor].
  rewrite (stress_at_Fin _ _ _ Hw (depths_pos d Hd)). reflexivity.
Qed.

Lemma default_width_pos : 0 < default_width.
Proof. reflexivity. Qed.

End Dashboard.









(** * The engine in binary64 arithmetic: properties *)

Module Binary64Facts.
Import Binary64.
Local Open Scope float_scope.

(** ** The sign of a rounded result

    The operations on binary64 numbers are specified by the functions of
    [SpecFloat] over sign, mantissa and exponent ([Prim2SF], [FloatAxioms]).
    Rounding keeps the sign: a product or a quotient has the sign given by
    its operands, or is a NaN. *)

Section SpecFloatFacts.

Lemma shr_1_nonneg (mrs : shr_record) : (0 <= shr_m mrs)%Z -> (0 <= shr_m (shr_1 mrs))%Z.
Proof.
  destruct mrs as [m r s]. simpl.
  destruct m as [|p|p]; [simpl; lia| |lia].
  intros _. destruct p; simpl; lia.
Qed.

Lemma iter_pos_shr_1_nonneg (n : positive) (mrs : shr_record) :
  (0 <= shr_m mrs)%Z -> (0 <= shr_m (SpecFloat.iter_pos shr_1 n mrs))%Z.
Proof.
  revert mrs. induction n as [n IH|n IH|]; intros mrs H; simpl.
  - apply IH, IH, shr_1_nonneg, H.
  - apply IH, IH, H.
  - apply shr_1_nonneg, H.
Qed.

Lemma shr_nonneg (mrs : shr_record) (e n : Z) :
  (0 <= shr_m mrs)%Z -> (0 <= shr_m (fst (shr mrs e n)))%Z.
Proof.
  intros H. destruct n; simpl; auto. apply iter_pos_shr_1_nonneg, H.
Qed.

Lemma shr_record_of_loc_m (m : Z) (l : location) : shr_m (shr_record_of_loc m l) = m.
Proof. destruct l as [|[]]; reflexivity. Qed.

Lemma shr_fexp_nonneg (prec emax m e : Z) (l : location) :
  (0 <= m)%Z -> (0 <= shr_m (fst (shr_fexp prec emax m e l)))%Z.
Proof.
  intros H. unfold shr_fexp. apply shr_nonneg. rewrite shr_record_of_loc_m. exact H.
Qed.

Lemma round_nearest_even_nonneg (m : Z) (l : location) :
  (0 <= m)%Z -> (0 <= round_nearest_even m l)%Z.
Proof.
  intros H. destruct l as [|[]]; simpl; try lia. destruct (Z.even m); lia.
Qed.

(** Rounding a non-negative mantissa keeps the sign and never gives a NaN. *)
Lemma binary_round_aux_sign (prec emax : Z) (s : bool) (m e : Z) (l : location) :
  (0 <= m)%Z -> SFsign (binary_round_aux prec emax s m e l) = Some s.
Proof.
  intros H. unfold binary_round_aux.
  pose proof (shr_fexp_nonneg prec emax m e l H) as H1.
  destruct (shr_fexp prec emax m e l) as [mrs' e']. simpl in H1.
  pose proof (shr_fexp_nonneg prec emax _ e' loc_Exact
                (round_nearest_even_nonneg _ (loc_of_shr_record mrs') H1)) as H2.
  destruct (shr_fexp prec emax _ e' loc_Exact) as [mrs'' e'']. simpl in H2.
  destruct (shr_m mrs'') as [|p|p]; [reflexivity| |lia].
  destruct (e'' <=? emax - prec)%Z; reflexivity.
Qed.

Lemma binary_round_sign (prec emax : Z) (s : bool) (m : positive) (e : Z) :
  SFsign (binary_round prec emax s m e) = Some s.
Proof.
  unfold binary_round. destruct (shl_align _ _ _) as [mz ez].
  apply binary_round_aux_sign. lia.
Qed.

Lemma binary_normalize_not_nan (prec emax m e : Z) (sz : bool) :
  SFsign (binary_normalize prec emax m e sz) <> None.
Proof.
  destruct m; simpl; [discriminate| |]; rewrite binary_round_sign; discriminate.
Qed.

Lemma SFmul_sign_finite_r (prec emax : Z) (x : spec_float) (a b : bool) (m : positive) (e : Z) :
  SFsign x = Some a ->
  SFsign (SFmul prec emax x (S754_finite b m e)) = Some (xorb a b).
Proof.
  destruct x as [s|s| |s mx ex]; simpl; intros [= <-]; try reflexivity.
  apply binary_round_aux_sign. lia.
Qed.

Lemma SFmul_sign_or_nan (prec emax : Z) (x y : spec_float) (a b : bool) :
  SFsign x = Some a -> SFsign y = Some b ->
  SFmul prec emax x y = S754_nan \/ SFsign (SFmul prec emax x y) = Some (xorb a b).
Proof.
  destruct x as [s|s| |s mx ex], y as [t|t| |t my ey]; simpl;
    intros [= <-] [= <-]; auto.
  right. apply binary_round_aux_sign. lia.
Qed.

Lemma SFdiv_core_binary_nonneg (prec emax : Z) (m1 : positive) (e1 : Z) (m2 : positive) (e2 : Z) :
  (0 <= fst (fst (SFdiv_core_binary prec emax (Z.pos m1) e1 (Z.pos m2) e2)))%Z.
Proof.
  unfold SFdiv_core_binary.
  set (s := (e1 - e2 - _)%Z).
  set (m' := match s with Z.pos _ => Z.shiftl (Z.pos m1) s | Z0 => Z.pos m1 | Z.neg _ => 0%Z end).
  assert (Hm : (0 <= m')%Z).
  { unfold m'. destruct s; try lia. apply Z.shiftl_nonneg. lia. }
  pose proof (Z.div_pos m' (Z.pos m2) Hm ltac:(lia)) as Hq.
  unfold Z.div in Hq. destruct (Z.div_eucl m' (Z.pos m2)) as [q r]. exact Hq.
Qed.

Lemma SFdiv_sign_finite_r (prec emax : Z) (x : spec_float) (a b : bool) (m : positive) (e : Z) :
  SFsign x = Some a ->
  SFsign (SFdiv prec emax x (S754_finite b m e)) = Some (xorb a b).
Proof.
  destruct x as [s|s| |s mx ex]; simpl; intros [= <-]; try reflexivity.
  pose proof (SFdiv_core_binary_nonneg prec emax mx ex m e) as H.
  destruct (SFdiv_core_binary _ _ _ _ _ _) as [[mz ez] lz]. simpl in H.
  apply binary_round_aux_sign, H.
Qed.

Lemma SFdiv_sign_finite_l (prec emax : Z) (y : spec_float) (a b : bool) (m : positive) (e : Z) :
  SFsign y = Some b ->
  SFsign (SFdiv prec emax (S754_finite a m e) y) = Some (xorb a b).
Proof.
  destruct y as [s|s| |s my ey]; simpl; intros [= <-]; try reflexivity.
  pose proof (SFdiv_core_binary_nonneg prec emax m e my ey) as H.
  destruct (SFdiv_core_binary _ _ _ _ _ _) as [[mz ez] lz]. simpl in H.
  apply binary_round_aux_sign, H.
Qed.

Lemma SFdiv_sign_or_nan (prec emax : Z) (x y : spec_float) (a b : bool) :
  SFsign x = Some a -> SFsign y = Some b ->
  SFdiv prec emax x y = S754_nan \/ SFsign (SFdiv prec emax x y) = Some (xorb a b).
Proof.
  destruct y as [t|t| |t my ey]; intros Hx [= <-].
  - destruct x; simpl in *; auto; injection Hx as <-; auto.
  - destruct x; simpl in *; auto; injection Hx as <-; auto.
  - right. apply SFdiv_sign_finite_r, Hx.
Qed.

End SpecFloatFacts.

(** ** Sums, absolute values and comparisons *)

Section SpecFloatOrder.

Lemma SFadd_finite_r_not_nan (prec emax : Z) (x : spec_float) (b : bool) (m : positive) (e : Z) :
  SFsign x <> None -> SFsign (SFadd prec emax x (S754_finite b m e)) <> None.
Proof.
  destruct x as [s|s| |s mx ex]; simpl; try congruence.
  intros _. apply binary_normalize_not_nan.
Qed.

Lemma SFsub_finite_r_not_nan (prec emax : Z) (x : spec_float) (b : bool) (m : positive) (e : Z) :
  SFsign x <> None -> SFsign (SFsub prec emax x (S754_finite b m e)) <> None.
Proof.
  destruct x as [s|s| |s mx ex]; simpl; try congruence.
  intros _. apply binary_normalize_not_nan.
Qed.

Lemma SFabs_sign (x : spec_float) : SFsign x <> None -> SFsign (SFabs x) = Some false.
Proof. destruct x; simpl; congruence. Qed.

Lemma SFopp_sign (x : spec_float) (s : bool) :
  SFsign x = Some s -> SFsign (SFopp x) = Some (negb s).
Proof. destruct x; simpl; congruence. Qed.

Lemma SFcompare_refl (x : spec_float) : SFsign x <> None -> SFcompare x x = Some Eq.
Proof.
  destruct x as [s|s| |s m e]; simpl; try congruence; intros _.
  - destruct s; reflexivity.
  - rewrite Z.compare_refl, Pos.compare_cont_refl. destruct s; reflexivity.
Qed.

Lemma SFcompare_antisym (x y : spec_float) (c : comparison) :
  SFcompare x y = Some c -> SFcompare y x = Some (CompOpp c).
Proof.
  destruct x as [s|s| |s m e], y as [t|t| |t m' e']; simpl; try discriminate;
    intros [= <-]; try (destruct s; reflexivity); try (destruct t; reflexivity);
    try (destruct s, t; reflexivity).
  destruct s, t; try reflexivity.
  - rewrite (Z.compare_antisym e e'). destruct (e ?= e')%Z; simpl; try reflexivity.
    rewrite (Pos.compare_cont_antisym m m' Eq). reflexivity.
  - rewrite (Z.compare_antisym e e'). destruct (e ?= e')%Z; simpl; try reflexivity.
    rewrite (Pos.compare_cont_antisym m m' Eq). reflexivity.
Qed.

Lemma SFltb_not_leb (x y : spec_float) : SFltb x y = true -> SFleb y x = false.
Proof.
  unfold SFltb, SFleb. destruct (SFcompare x y) as [[]|] eqn:E; try discriminate.
  rewrite (SFcompare_antisym _ _ _ E). reflexivity.
Qed.

(** What a comparison with zero says about the sign. *)
Lemma SFltb_zero_l (z : bool) (x : spec_float) :
  SFltb (S754_zero z) x = true ->
  x = S754_infinity false \/ exists m e, x = S754_finite false m e.
Proof.
  destruct x as [s|s| |s m e]; unfold SFltb; simpl; try discriminate.
  - destruct s; [discriminate|auto].
  - destruct s; [discriminate|eauto].
Qed.

Lemma SFleb_zero_l (z : bool) (x : spec_float) :
  SFsign x = Some false -> SFleb (S754_zero z) x = true.
Proof. destruct x; simpl; intros [= ->]; reflexivity. Qed.

Lemma SFleb_zero_r (z : bool) (x : spec_float) :
  SFsign x = Some true -> SFleb x (S754_zero z) = true.
Proof. destruct x; simpl; intros [= ->]; reflexivity. Qed.

Lemma SFltb_nan_l (y : spec_float) : SFltb S754_nan y = false.
Proof. reflexivity. Qed.

Lemma SFltb_pos_inf_l (y : spec_float) : SFltb (S754_infinity false) y = false.
Proof. destruct y as [s|s| |s m e]; try reflexivity. destruct s; reflexivity. Qed.

End SpecFloatOrder.

(** ** Rounding above the underflow threshold

    The magnitude of a positive number of mantissa [m] and exponent [e] is
    [digits m + e]. Above [emin] rounding does not lower the magnitude, so the
    result is not a zero. *)

Section SpecFloatMagnitude.

Lemma digits2_pos_size (p : positive) : digits2_pos p = Pos.size p.
Proof. induction p; simpl; congruence. Qed.

Lemma Zdigits2_log2 (m : Z) : (0 < m)%Z -> Zdigits2 m = (Z.log2 m + 1)%Z.
Proof.
  destruct m as [|p|p]; try lia. intros _. simpl.
  rewrite digits2_pos_size. destruct p; simpl; lia.
Qed.

Lemma shr_1_m (mrs : shr_record) :
  (0 <= shr_m mrs)%Z -> shr_m (shr_1 mrs) = Z.shiftr (shr_m mrs) 1.
Proof.
  destruct mrs as [m r s]. simpl. intros H. rewrite Z.shiftr_div_pow2 by lia.
  change (2 ^ 1)%Z with 2%Z.
  destruct m as [|p|p]; [reflexivity| |lia].
  destruct p as [p|p|]; simpl.
  - rewrite (Pos2Z.inj_xI p). apply Z.div_unique with 1%Z; lia.
  - rewrite (Pos2Z.inj_xO p). apply Z.div_unique with 0%Z; lia.
  - reflexivity.
Qed.

Lemma iter_pos_shr_1_m (n : positive) (mrs : shr_record) :
  (0 <= shr_m mrs)%Z ->
  shr_m (SpecFloat.iter_pos shr_1 n mrs) = Z.shiftr (shr_m mrs) (Z.pos n).
Proof.
  revert mrs. induction n as [n IH|n IH|]; intros mrs H; simpl.
  - rewrite IH by (apply iter_pos_shr_1_nonneg, shr_1_nonneg, H).
    rewrite IH by (apply shr_1_nonneg, H).
    rewrite shr_1_m by exact H.
    rewrite !Z.shiftr_shiftr by lia. f_equal. lia.
  - rewrite IH by (apply iter_pos_shr_1_nonneg, H).
    rewrite IH by exact H.
    rewrite !Z.shiftr_shiftr by lia. f_equal. lia.
  - apply shr_1_m, H.
Qed.

(** What [shr_fexp] leaves of a positive mantissa whose magnitude
    [Zdigits2 m + e] is above [emin]: a positive mantissa of at least the
    same magnitude, at an exponent that is the canonical one. *)
Lemma shr_fexp_pos (prec emax m e : Z) (l : location) :
  (0 < prec)%Z -> (0 < m)%Z -> (SpecFloat.emin prec emax < Zdigits2 m + e)%Z ->
  let '(mrs, e') := shr_fexp prec emax m e l in
  (0 < shr_m mrs)%Z /\ (Zdigits2 (shr_m mrs) + e' = Zdigits2 m + e)%Z.
Proof.
  intros Hprec Hm Hmag. unfold shr_fexp, shr.
  set (n := (fexp prec emax (Zdigits2 m + e) - e)%Z).
  assert (Hn : (n < Zdigits2 m)%Z) by (unfold n, fexp; lia).
  destruct n as [|p|p] eqn:En.
  - rewrite shr_record_of_loc_m. split; [exact Hm|reflexivity].
  - rewrite iter_pos_shr_1_m by (rewrite shr_record_of_loc_m; lia).
    rewrite shr_record_of_loc_m.
    rewrite (Zdigits2_log2 m Hm) in *.
    assert (Hq : (0 < Z.shiftr m (Z.pos p))%Z).
    { assert (0 <= Z.shiftr m (Z.pos p))%Z by (apply Z.shiftr_nonneg; lia).
      assert (Z.shiftr m (Z.pos p) <> 0)%Z by (rewrite Z.shiftr_eq_0_iff; lia).
      lia. }
    split; [exact Hq|].
    rewrite (Zdigits2_log2 _ Hq), Z.log2_shiftr by lia. lia.
  - rewrite shr_record_of_loc_m. split; [exact Hm|reflexivity].
Qed.

Lemma Zdigits2_mono (a b : Z) : (0 < a)%Z -> (a <= b)%Z -> (Zdigits2 a <= Zdigits2 b)%Z.
Proof.
  intros Ha Hab. rewrite !Zdigits2_log2 by lia.
  pose proof (Z.log2_le_mono a b Hab). lia.
Qed.

Lemma round_nearest_even_ge (m : Z) (l : location) :
  (m <= round_nearest_even m l)%Z.
Proof. destruct l as [|[]]; simpl; try lia. destruct (Z.even m); lia. Qed.

(** Rounding a positive mantissa whose magnitude is above [emin] gives a
    positive number: a finite one of at least that magnitude, or the
    infinity. No underflow to zero. *)
Lemma binary_round_aux_pos (prec emax : Z) (s : bool) (m e : Z) (l : location) :
  (0 < prec)%Z -> (0 < m)%Z -> (SpecFloat.emin prec emax < Zdigits2 m + e)%Z ->
  binary_round_aux prec emax s m e l = S754_infinity s \/
  exists (m' : positive) (e' : Z),
    binary_round_aux prec emax s m e l = S754_finite s m' e' /\
    (Zdigits2 m + e <= Zdigits2 (Z.pos m') + e')%Z.
Proof.
  intros Hprec Hm Hmag. unfold binary_round_aux.
  pose proof (shr_fexp_pos prec emax m e l Hprec Hm Hmag) as H1.
  destruct (shr_fexp prec emax m e l) as [mrs' e']. destruct H1 as [Hp1 Hd1].
  set (m1 := round_nearest_even (shr_m mrs') (loc_of_shr_record mrs')).
  pose proof (round_nearest_even_ge (shr_m mrs') (loc_of_shr_record mrs')) as Hge.
  fold m1 in Hge.
  assert (Hm1 : (0 < m1)%Z) by lia.
  pose proof (Zdigits2_mono _ _ Hp1 Hge) as Hd.
  pose proof (shr_fexp_pos prec emax m1 e' loc_Exact Hprec Hm1 ltac:(lia)) as H2.
  destruct (shr_fexp prec emax m1 e' loc_Exact) as [mrs'' e'']. destruct H2 as [Hp2 Hd2].
  destruct (shr_m mrs'') as [|p|p]; try lia.
  destruct (e'' <=? emax - prec)%Z; [right|left; reflexivity].
  exists p, e''. split; [reflexivity|]. lia.
Qed.

End SpecFloatMagnitude.

(** ** Products and quotients that do not underflow *)

Section SpecFloatNoUnderflow.

Lemma Zdigits2_bounds (m : Z) :
  (0 < m)%Z -> (2 ^ (Zdigits2 m - 1) <= m < 2 ^ Zdigits2 m)%Z.
Proof.
  intros Hm. rewrite (Zdigits2_log2 m Hm).
  pose proof (Z.log2_spec m Hm) as H.
  replace (Z.log2 m + 1 - 1)%Z with (Z.log2 m) by lia.
  unfold Z.succ in H. exact H.
Qed.

Lemma Zdigits2_ge_pow2 (m k : Z) :
  (0 <= k)%Z -> (2 ^ k <= m)%Z -> (k + 1 <= Zdigits2 m)%Z.
Proof.
  intros Hk H. assert (Hm : (0 < m)%Z).
  { pose proof (Z.pow_pos_nonneg 2 k ltac:(lia) Hk). lia. }
  rewrite (Zdigits2_log2 m Hm).
  apply (Z.log2_le_pow2 m k Hm) in H. lia.
Qed.

Lemma Zdigits2_pos (p : positive) : (1 <= Zdigits2 (Z.pos p))%Z.
Proof. simpl. lia. Qed.

(** The product of two finite numbers whose magnitudes add up above [emin]
    does not underflow: it is the infinity or a finite number of at least
    the magnitude [Mx + My - 1]. *)
Lemma SFmul_finite_pos (prec emax : Z) (sx sy : bool) (mx my : positive) (ex ey : Z) :
  (0 < prec)%Z ->
  (SpecFloat.emin prec emax
   < Zdigits2 (Z.pos mx) + ex + (Zdigits2 (Z.pos my) + ey) - 1)%Z ->
  SFmul prec emax (S754_finite sx mx ex) (S754_finite sy my ey)
  = S754_infinity (xorb sx sy) \/
  exists (m : positive) (e : Z),
    SFmul prec emax (S754_finite sx mx ex) (S754_finite sy my ey)
    = S754_finite (xorb sx sy) m e /\
    (Zdigits2 (Z.pos mx) + ex + (Zdigits2 (Z.pos my) + ey) - 1
     <= Zdigits2 (Z.pos m) + e)%Z.
Proof.
  intros Hprec Hmag. simpl SFmul.
  assert (Hd : (Zdigits2 (Z.pos mx) + Zdigits2 (Z.pos my) - 1
                <= Zdigits2 (Z.pos (mx * my)))%Z).
  { rewrite !Zdigits2_log2 by lia. rewrite Pos2Z.inj_mul.
    pose proof (Z.log2_mul_below (Z.pos mx) (Z.pos my) ltac:(lia) ltac:(lia)).
    lia. }
  destruct (binary_round_aux_pos prec emax (xorb sx sy) (Z.pos (mx * my)) (ex + ey)
              loc_Exact Hprec ltac:(lia) ltac:(lia)) as [H|(m & e & H & Hm)].
  - left. exact H.
  - right. exists m, e. split; [exact H|]. lia.
Qed.

(** Likewise for a quotient: no underflow when the difference of the
    magnitudes is above [emin]. *)
Lemma SFdiv_finite_pos (prec emax : Z) (sx sy : bool) (mx my : positive) (ex ey : Z) :
  (0 < prec)%Z ->
  (SpecFloat.emin prec emax
   < Zdigits2 (Z.pos mx) + ex - (Zdigits2 (Z.pos my) + ey))%Z ->
  SFdiv prec emax (S754_finite sx mx ex) (S754_finite sy my ey)
  = S754_infinity (xorb sx sy) \/
  exists (m : positive) (e : Z),
    SFdiv prec emax (S754_finite sx mx ex) (S754_finite sy my ey)
    = S754_finite (xorb sx sy) m e /\
    (Zdigits2 (Z.pos mx) + ex - (Zdigits2 (Z.pos my) + ey)
     <= Zdigits2 (Z.pos m) + e)%Z.
Proof.
  intros Hprec Hmag. simpl SFdiv. unfold SFdiv_core_binary.
  set (d1 := Zdigits2 (Z.pos mx)) in *. set (d2 := Zdigits2 (Z.pos my)) in *.
  set (e' := Z.min (fexp prec emax (d1 + ex - (d2 + ey))) (ex - ey)).
  set (s := (ex - ey - e')%Z).
  pose proof (Zdigits2_pos mx) as Hd1. pose proof (Zdigits2_pos my) as Hd2.
  fold d1 in Hd1. fold d2 in Hd2.
  assert (Hs : (0 <= s /\ d2 - d1 + 1 <= s)%Z).
  { unfold s, e', fexp, SpecFloat.emin in *. lia. }
  set (m' := match s with
             | Z.pos _ => Z.shiftl (Z.pos mx) s
             | 0%Z => Z.pos mx
             | Z.neg _ => 0%Z
             end).
  assert (Hm' : m' = (Z.pos mx * 2 ^ s)%Z).
  { unfold m'. destruct Hs as [Hs _]. clearbody s. destruct s as [|p|p]; try lia.
    apply Z.shiftl_mul_pow2. lia. }
  pose proof (Zdigits2_bounds (Z.pos mx) ltac:(lia)) as [Hx1 Hx2].
  pose proof (Zdigits2_bounds (Z.pos my) ltac:(lia)) as [Hy1 Hy2].
  fold d1 in Hx1, Hx2. fold d2 in Hy1, Hy2.
  set (k := (d1 + s - 1 - d2)%Z).
  assert (Hk : (0 <= k)%Z) by (unfold k; lia).
  assert (Hq : (2 ^ k <= m' / Z.pos my)%Z).
  { apply Z.div_le_lower_bound; [lia|].
    rewrite Hm'.
    apply Z.le_trans with (2 ^ d2 * 2 ^ k)%Z.
    - apply Z.mul_le_mono_nonneg_r; [apply Z.pow_nonneg; lia|lia].
    - rewrite <- Z.pow_add_r by lia.
      replace (d2 + k)%Z with ((d1 - 1) + s)%Z by (unfold k; lia).
      rewrite Z.pow_add_r by lia.
      apply Z.mul_le_mono_nonneg_r; [apply Z.pow_nonneg; lia|exact Hx1]. }
  unfold Z.div in Hq. destruct (Z.div_eucl m' (Z.pos my)) as [q r].
  pose proof (Zdigits2_ge_pow2 q k Hk Hq) as Hdq.
  assert (Hqpos : (0 < q)%Z).
  { pose proof (Z.pow_pos_nonneg 2 k ltac:(lia) Hk). lia. }
  destruct (binary_round_aux_pos prec emax (xorb sx sy) q e'
              (new_location (Z.pos my) r) Hprec Hqpos) as [H|(m & e & H & Hm)].
  - unfold k, s in Hdq. lia.
  - left. exact H.
  - right. exists m, e. split; [exact H|]. unfold k, s in Hdq. lia.
Qed.

End SpecFloatNoUnderflow.

(** ** Signs of binary64 numbers *)

Section FloatSign.

Lemma Prim2SF_0 : Prim2SF 0 = S754_zero false.
Proof. reflexivity. Qed.

Lemma Prim2SF_infinity : Prim2SF infinity = S754_infinity false.
Proof. reflexivity. Qed.

Lemma ltb_0_cases (x : float) :
  (0 <? x) = true ->
  Prim2SF x = S754_infinity false \/ exists m e, Prim2SF x = S754_finite false m e.
Proof. rewrite FloatAxioms.ltb_spec, Prim2SF_0. apply SFltb_zero_l. Qed.

Lemma fsign_pos (x : float) : (0 <? x) = true -> fsign x = Some false.
Proof.
  intros [H|(m & e & H)]%ltb_0_cases; unfold fsign; rewrite H; reflexivity.
Qed.

(** A positive number below the infinity is a finite positive number. *)
Lemma pos_finite (x : float) :
  (0 <? x) = true -> (x <? infinity) = true ->
  exists m e, Prim2SF x = S754_finite false m e.
Proof.
  intros [H|H]%ltb_0_cases; [|auto].
  rewrite FloatAxioms.ltb_spec, Prim2SF_infinity, H. discriminate.
Qed.

Lemma leb_0_of_fsign (x : float) : fsign x = Some false -> (0 <=? x) = true.
Proof. intros H. rewrite FloatAxioms.leb_spec, Prim2SF_0. apply SFleb_zero_l, H. Qed.

Lemma leb_of_fsign_neg (x : float) : fsign x = Some true -> (x <=? 0) = true.
Proof. intros H. rewrite FloatAxioms.leb_spec, Prim2SF_0. apply SFleb_zero_r, H. Qed.

Lemma is_nan_false (x : float) : fsign x <> None -> is_nan x = false.
Proof.
  intros H. unfold is_nan. rewrite FloatAxioms.eqb_spec. unfold SFeqb.
  rewrite (SFcompare_refl _ H). reflexivity.
Qed.

Lemma ltb_not_leb (x y : float) : (x <? y) = true -> (y <=? x) = false.
Proof. rewrite FloatAxioms.ltb_spec, FloatAxioms.leb_spec. apply SFltb_not_leb. Qed.

Lemma ltb_true_not_nan (x y : float) : (x <? y) = true -> fsign x <> None.
Proof.
  rewrite FloatAxioms.ltb_spec. unfold fsign.
  destruct (Prim2SF x); try (simpl; congruence).
  rewrite SFltb_nan_l. discriminate.
Qed.

Lemma fsign_mul_finite (x y : float) (a b : bool) (m : positive) (e : Z) :
  fsign x = Some a -> Prim2SF y = S754_finite b m e ->
  fsign (x * y) = Some (xorb a b).
Proof.
  unfold fsign. intros Hx Hy. rewrite FloatAxioms.mul_spec, Hy.
  apply SFmul_sign_finite_r, Hx.
Qed.

Lemma fsign_mul (x y : float) (a b : bool) :
  fsign x = Some a -> fsign y = Some b ->
  fsign (x * y) = None \/ fsign (x * y) = Some (xorb a b).
Proof.
  unfold fsign. intros Hx Hy. rewrite FloatAxioms.mul_spec.
  destruct (SFmul_sign_or_nan prec emax _ _ _ _ Hx Hy) as [H|H]; [left|right].
  - unfold SF64mul. rewrite H. reflexivity.
  - exact H.
Qed.

Lemma fsign_div_finite (x y : float) (a b : bool) (m : positive) (e : Z) :
  fsign x = Some a -> Prim2SF y = S754_finite b m e ->
  fsign (x / y) = Some (xorb a b).
Proof.
  unfold fsign. intros Hx Hy. rewrite FloatAxioms.div_spec, Hy.
  apply SFdiv_sign_finite_r, Hx.
Qed.

Lemma fsign_finite_div (x y : float) (a b : bool) (m : positive) (e : Z) :
  Prim2SF x = S754_finite a m e -> fsign y = Some b ->
  fsign (x / y) = Some (xorb a b).
Proof.
  unfold fsign. intros Hx Hy. rewrite FloatAxioms.div_spec, Hx.
  apply SFdiv_sign_finite_l, Hy.
Qed.

Lemma fsign_div (x y : float) (a b : bool) :
  fsign x = Some a -> fsign y = Some b ->
  fsign (x / y) = None \/ fsign (x / y) = Some (xorb a b).
Proof.
  unfold fsign. intros Hx Hy. rewrite FloatAxioms.div_spec.
  destruct (SFdiv_sign_or_nan prec emax _ _ _ _ Hx Hy) as [H|H]; [left|right].
  - unfold SF64div. rewrite H. reflexivity.
  - exact H.
Qed.

Lemma Prim2SF_two52 : Prim2SF two52 = S754_finite false 4503599627370496 0.
Proof. reflexivity. Qed.

(** [rint] keeps the sign bit. *)
Lemma fsign_rint (x : float) (s : bool) : fsign x = Some s -> fsign (rint x) = Some s.
Proof.
  intros Hx. unfold rint.
  rewrite is_nan_false by congruence.
  destruct (two52 <=? abs x); [exact Hx|].
  destruct (x =? 0) eqn:E0; [exact Hx|].
  assert (Hr : fsign (abs (abs x + two52 - two52)) = Some false).
  { unfold fsign. rewrite FloatAxioms.abs_spec. apply SFabs_sign.
    rewrite FloatAxioms.sub_spec, Prim2SF_two52. apply SFsub_finite_r_not_nan.
    rewrite FloatAxioms.add_spec, Prim2SF_two52. apply SFadd_finite_r_not_nan.
    rewrite FloatAxioms.abs_spec. unfold fsign in Hx.
    rewrite SFabs_sign; congruence. }
  assert (Hlt : (x <? 0) = s).
  { rewrite FloatAxioms.ltb_spec, Prim2SF_0. rewrite FloatAxioms.eqb_spec, Prim2SF_0 in E0.
    unfold fsign in Hx. destruct (Prim2SF x) as [t|t| |t m e]; simpl in *;
      try discriminate; injection Hx as ->; destruct s; reflexivity. }
  rewrite Hlt. destruct s; [|exact Hr].
  unfold fsign. rewrite FloatAxioms.opp_spec. apply (SFopp_sign _ false), Hr.
Qed.

(** Rounding to [ndigits] decimals keeps the sign bit. *)
Lemma fsign_round (x : float) (ndigits : nat) (s : bool) (m : positive) (e : Z) :
  Prim2SF (power_of_ten ndigits) = S754_finite false m e ->
  fsign x = Some s -> fsign (round x ndigits) = Some s.
Proof.
  intros Hp Hx. unfold round.
  rewrite <- (xorb_false_r s). eapply fsign_div_finite; [|exact Hp].
  apply fsign_rint. rewrite <- (xorb_false_r s).
  eapply fsign_mul_finite; [exact Hx|exact Hp].
Qed.

Lemma power_of_ten_2 : Prim2SF (power_of_ten 2) = S754_finite false 7036874417766400 (-46).
Proof. reflexivity. Qed.

Lemma power_of_ten_3 : Prim2SF (power_of_ten 3) = S754_finite false 8796093022208000 (-43).
Proof. reflexivity. Qed.

(** A value that is a NaN or has the sign [s]. *)
Lemma sign_or_nan_mul (x y : float) (a b : bool) :
  sign_or_nan a x -> sign_or_nan b y -> sign_or_nan (xorb a b) (x * y).
Proof.
  unfold sign_or_nan, fsign. rewrite FloatAxioms.mul_spec.
  intros [Hx|Hx] [Hy|Hy].
  - left. destruct (Prim2SF x); try discriminate. reflexivity.
  - left. destruct (Prim2SF x); try discriminate. reflexivity.
  - left. destruct (Prim2SF y); try discriminate.
    destruct (Prim2SF x); reflexivity.
  - destruct (SFmul_sign_or_nan prec emax _ _ _ _ Hx Hy) as [H|H]; [left|right].
    + unfold SF64mul. rewrite H. reflexivity.
    + exact H.
Qed.

Lemma sign_or_nan_div (x y : float) (a b : bool) :
  sign_or_nan a x -> sign_or_nan b y -> sign_or_nan (xorb a b) (x / y).
Proof.
  unfold sign_or_nan, fsign. rewrite FloatAxioms.div_spec.
  intros [Hx|Hx] [Hy|Hy].
  - left. destruct (Prim2SF x); try discriminate. reflexivity.
  - left. destruct (Prim2SF x); try discriminate. reflexivity.
  - left. destruct (Prim2SF y); try discriminate.
    destruct (Prim2SF x); reflexivity.
  - destruct (SFdiv_sign_or_nan prec emax _ _ _ _ Hx Hy) as [H|H]; [left|right].
    + unfold SF64div. rewrite H. reflexivity.
    + exact H.
Qed.

Lemma sign_or_nan_of_fsign (x : float) (s : bool) :
  fsign x = Some s -> sign_or_nan s x.
Proof. right. assumption. Qed.

Lemma sign_or_nan_passes (x y : float) (s : bool) :
  sign_or_nan s x -> (x <? y) = true -> fsign x = Some s.
Proof.
  intros [H|H] Hlt; [|exact H]. destruct (ltb_true_not_nan _ _ Hlt H).
Qed.

End FloatSign.

(** ** The loop and the depths tried, in binary64 *)

Section Loop.

Variables (span width : float) (mat : material) (moment : float).

Lemma scan_finds_nothing_iff (ds : list float) :
  scan span width mat moment ds = None <->
  forall d, d ∈ ds -> passes width mat moment d = false.
Proof.
  induction ds as [|c ds IH]; simpl.
  - split; [|reflexivity]. intros _ d Hd. inversion Hd.
  - fold (passes width mat moment c).
    destruct (passes width mat moment c) eqn:E.
    + split; [discriminate|]. intros H.
      rewrite (H c) in E by apply list_elem_of_here. discriminate.
    + rewrite IH. split.
      * intros H d [->|Hd]%elem_of_cons; auto.
      * intros H d Hd. apply H, list_elem_of_further, Hd.
Qed.

Lemma scan_finds_iff (ds : list float) (D : Design) :
  scan span width mat moment ds = Some D <->
  exists (i : nat) (d : float),
    ds !! i = Some d /\ passes width mat moment d = true /\
    (forall (j : nat) (c : float),
       (j < i)%nat -> ds !! j = Some c -> passes width mat moment c = false) /\
    D = solution span width mat d (stress_at width moment d).
Proof.
  revert D. induction ds as [|c ds IH]; intros D; simpl.
  - split; [discriminate|]. intros (i & d & H & _). destruct i; discriminate.
  - fold (passes width mat moment c).
    destruct (passes width mat moment c) eqn:E.
    + split.
      * intros [= <-]. exists 0%nat, c. repeat split; auto. intros j ? Hj. lia.
      * intros (i & d & Hi & Hd & Hbefore & ->). destruct i as [|i].
        -- injection Hi as <-. reflexivity.
        -- rewrite (Hbefore 0%nat c) in E by (reflexivity || lia). discriminate.
    + rewrite IH. split.
      * intros (i & d & Hi & Hd & Hbefore & ->). exists (S i), d.
        repeat split; auto. intros [|j] x Hj Hx.
        -- injection Hx as <-. exact E.
        -- apply (Hbefore j); [lia|exact Hx].
      * intros (i & d & Hi & Hd & Hbefore & ->). destruct i as [|i].
        -- injection Hi as <-. congruence.
        -- exists i, d. repeat split; auto.
           intros j x Hj Hx. apply (Hbefore (S j)); [lia|exact Hx].
Qed.

End Loop.

(** The two ways out of [optimize_beam] besides the [KeyError]. *)

Section Engine.

Lemma float_pow2_cases (x : float) :
  (float_pow2 x = Raise OverflowError /\
   is_finite x = true /\ is_infinity (x * x) = true) \/
  (float_pow2 x = Return (x * x) /\
   (is_finite x = false \/ is_infinity (x * x) = false)).
Proof.
  unfold float_pow2. destruct (is_finite x); simpl.
  - destruct (is_infinity (x * x)); auto.
  - auto.
Qed.

Lemma optimize_beam_Return (span load : float) (name : string) (width : float)
    (mat : material) :
  MATERIALS !! name = Some mat -> float_pow2 span = Return (span * span) ->
  optimize_beam span load name width
  = Return (scan span width mat (moment_value load span) depths).
Proof.
  intros Hmat Hsq. unfold optimize_beam, calculate_bending_moment.
  rewrite Hmat, Hsq. reflexivity.
Qed.

Lemma optimize_beam_Raise (span load : float) (name : string) (width : float)
    (mat : material) :
  MATERIALS !! name = Some mat -> float_pow2 span = Raise OverflowError ->
  optimize_beam span load name width = Raise OverflowError.
Proof.
  intros Hmat Hsq. unfold optimize_beam, calculate_bending_moment.
  rewrite Hmat, Hsq. reflexivity.
Qed.

Lemma Return_injective {A : Type} (a b : A) : Return a = Return b -> a = b.
Proof. congruence. Qed.

Lemma catalog_inv (name : string) (mat : material) :
  MATERIALS !! name = Some mat -> mat = Concrete \/ mat = Steel.
Proof.
  unfold MATERIALS. rewrite !lookup_insert_Some, lookup_empty.
  intros [[_ <-]|[_ [[_ <-]|[_ H]]]]; auto. discriminate.
Qed.

End Engine.

(** The grid of [np.arange(0.2, 1.0, 0.01)], by computation. *)

Section Grid.

Lemma forallb_elem_of (f : float -> bool) (l : list float) (d : float) :
  forallb f l = true -> d ∈ l -> f d = true.
Proof.
  intros H Hd. apply (proj1 (forallb_forall f l) H). apply list_elem_of_In, Hd.
Qed.

Lemma ascending_lookup (l : list float) (i j : nat) (a b : float) :
  ascending l = true -> l !! i = Some a -> l !! j = Some b -> (i < j)%nat ->
  (a <? b) = true.
Proof.
  revert i j. induction l as [|c l IH]; intros i j H Hi Hj Hlt; [discriminate|].
  simpl in H. apply andb_true_iff in H as [Hc Hl].
  destruct j as [|j]; [lia|]. destruct i as [|i].
  - injection Hi as <-. simpl in Hj.
    apply (forallb_elem_of _ _ _ Hc). apply list_elem_of_lookup. eauto.
  - apply (IH i j Hl Hi Hj). lia.
Qed.

Lemma depths_length : length depths = 80%nat.
Proof. reflexivity. Qed.

Lemma depths_strictly_ascending (i j : nat) (a b : float) :
  depths !! i = Some a -> depths !! j = Some b -> (i < j)%nat -> (a <? b) = true.
Proof. apply ascending_lookup. vm_compute. reflexivity. Qed.

Lemma depths_range (d : float) :
  d ∈ depths -> (0.2 <=? d) = true /\ (d <? 1.0) = true.
Proof.
  intros Hd. apply andb_true_iff.
  apply (forallb_elem_of (fun d => (0.2 <=? d) && (d <? 1.0)) depths d); [|exact Hd].
  vm_compute. reflexivity.
Qed.

(** The depth reported for the candidate of index [i] is the binary64 number
    nearest to [(20 + i) / 100]. *)
Lemma depths_rounded :
  (fun d => round d 3) <$> depths
  = (fun i : Z => of_uint63 (Uint63Axioms.of_Z i) / 100) <$> seqZ 20 80.
Proof. vm_compute. reflexivity. Qed.

Lemma depths_near_decimal :
  Forall2 (fun d r => (abs (d - r) <=? 1e-15) = true) depths
          ((fun i : Z => of_uint63 (Uint63Axioms.of_Z i) / 100) <$> seqZ 20 80).
Proof. vm_compute. repeat constructor. Qed.

Lemma depths_pos_finite (d : float) :
  d ∈ depths -> pos_finiteb d = true /\ pos_finiteb (d * d) = true.
Proof.
  intros Hd. apply andb_true_iff.
  apply (forallb_elem_of (fun d => pos_finiteb d && pos_finiteb (d * d)) depths d);
    [|exact Hd].
  vm_compute. reflexivity.
Qed.

End Grid.

(** ** Zeros *)

Section Zeros.

Lemma eqb_0_zero (x : float) : (x =? 0) = true -> exists s, Prim2SF x = S754_zero s.
Proof.
  rewrite FloatAxioms.eqb_spec, Prim2SF_0.
  destruct (Prim2SF x) as [s|s| |s m e]; unfold SFeqb; simpl; try discriminate.
  - eauto.
  - destruct s; discriminate.
  - destruct s; discriminate.
Qed.

Lemma zero_eqb_0 (x : float) (s : bool) : Prim2SF x = S754_zero s -> (x =? 0) = true.
Proof. intros H. rewrite FloatAxioms.eqb_spec, Prim2SF_0, H. reflexivity. Qed.

Lemma lt_infinity_cases (x : float) :
  fsign x = Some false -> (x <? infinity) = true ->
  Prim2SF x = S754_zero false \/ exists m e, Prim2SF x = S754_finite false m e.
Proof.
  unfold fsign. rewrite FloatAxioms.ltb_spec, Prim2SF_infinity.
  destruct (Prim2SF x) as [s|s| |s m e]; simpl; try discriminate;
    intros [= ->]; try discriminate; eauto.
Qed.

Lemma zero_mul (x y : float) (s : bool) :
  Prim2SF x = S754_zero s ->
  (Prim2SF y = S754_zero false \/ exists m e, Prim2SF y = S754_finite false m e) ->
  exists u, Prim2SF (x * y) = S754_zero u.
Proof.
  intros Hx Hy. rewrite FloatAxioms.mul_spec, Hx.
  destruct Hy as [->|(m & e & ->)]; simpl; eauto.
Qed.

Lemma zero_div_pos (x y : float) (s : bool) :
  Prim2SF x = S754_zero s -> (0 <? y) = true ->
  exists u, Prim2SF (x / y) = S754_zero u.
Proof.
  intros Hx Hy. rewrite FloatAxioms.div_spec, Hx.
  destruct (ltb_0_cases y Hy) as [->|(m & e & ->)]; simpl; eauto.
Qed.

Lemma rint_zero (x : float) (s : bool) : Prim2SF x = S754_zero s -> rint x = x.
Proof.
  intros H. unfold rint.
  rewrite is_nan_false by (unfold fsign; rewrite H; discriminate).
  destruct (two52 <=? abs x); [reflexivity|].
  rewrite (zero_eqb_0 x s H). reflexivity.
Qed.

Lemma round_zero (x : float) (s : bool) (ndigits : nat) (m : positive) (e : Z) :
  Prim2SF (power_of_ten ndigits) = S754_finite false m e ->
  Prim2SF x = S754_zero s ->
  exists u, Prim2SF (round x ndigits) = S754_zero u.
Proof.
  intros Hp Hx. unfold round.
  destruct (zero_mul x (power_of_ten ndigits) s Hx) as [u Hu]; [eauto|].
  rewrite (rint_zero _ u Hu).
  rewrite FloatAxioms.div_spec, Hu, Hp. simpl. eauto.
Qed.

Lemma allowable_stress_finite (name : string) (mat : material) :
  MATERIALS !! name = Some mat ->
  exists m e, Prim2SF (allowable_stress mat) = S754_finite false m e.
Proof. intros [-> | ->]%catalog_inv; do 2 eexists; reflexivity. Qed.

Lemma cost_per_m3_finite (name : string) (mat : material) :
  MATERIALS !! name = Some mat ->
  exists m e, Prim2SF (cost_per_m3 mat) = S754_finite false m e.
Proof. intros [-> | ->]%catalog_inv; do 2 eexists; reflexivity. Qed.

Lemma Prim2SF_8 : Prim2SF 8 = S754_finite false 4503599627370496 (-49).
Proof. reflexivity. Qed.

Lemma Prim2SF_6 : Prim2SF 6 = S754_finite false 6755399441055744 (-50).
Proof. reflexivity. Qed.

End Zeros.

(** ** The optimizer in binary64 *)













(** ** No underflow of the section modulus *)

Section NoUnderflow.

Lemma magnitude_geb_spec (k : Z) (x : float) :
  magnitude_geb k x = true ->
  exists (m : positive) (e : Z),
    Prim2SF x = S754_finite false m e /\ (k <= Zdigits2 (Z.pos m) + e)%Z.
Proof.
  unfold magnitude_geb. destruct (Prim2SF x) as [| | |[] m e]; try discriminate.
  intros H%Z.leb_le. eauto.
Qed.

Lemma depths_square_magnitude (d : float) :
  d ∈ depths -> magnitude_geb (-4) (d * d) = true.
Proof.
  apply (forallb_elem_of (fun d => magnitude_geb (-4) (d * d)) depths d).
  vm_compute. reflexivity.
Qed.

Lemma Prim2SF_2_1066 : Prim2SF 0x1p-1066 = S754_finite false 256 (-1074).
Proof. reflexivity. Qed.

(** A binary64 number is normal, with a mantissa of 53 digits, or has the
    least exponent. *)
Lemma finite_canonical (x : float) (s : bool) (m : positive) (e : Z) :
  Prim2SF x = S754_finite s m e ->
  (e = -1074 \/ (-1074 < e /\ Zdigits2 (Z.pos m) = 53))%Z.
Proof.
  intros H. pose proof (FloatAxioms.Prim2SF_valid x) as V. rewrite H in V.
  unfold SpecFloat.valid_binary, bounded, canonical_mantissa, fexp in V.
  apply andb_true_iff in V as [V _]. apply Z.eqb_eq in V.
  change (SpecFloat.emin prec emax) with (-1074)%Z in V.
  change prec with 53%Z in V. simpl Zdigits2. lia.
Qed.

(** A number that is at least 2^-1066 is the infinity or a finite positive
    number of magnitude at least -1065. *)
Lemma ge_2_1066 (x : float) :
  (0x1p-1066 <=? x) = true ->
  Prim2SF x = S754_infinity false \/
  exists (m : positive) (e : Z),
    Prim2SF x = S754_finite false m e /\ (-1065 <= Zdigits2 (Z.pos m) + e)%Z.
Proof.
  rewrite FloatAxioms.leb_spec, Prim2SF_2_1066.
  destruct (Prim2SF x) as [s|s| |s m e] eqn:E; unfold SFleb, SFcompare;
    try discriminate.
  - destruct s; [discriminate|auto].
  - destruct s; [discriminate|]. intros H. right. exists m, e. split; [reflexivity|].
    destruct (finite_canonical x false m e E) as [->|[He Hd]]; [|lia].
    simpl Z.compare in H.
    assert (Hm : (256 <= m)%positive).
    { unfold Pos.le, Pos.compare. destruct (Pos.compare_cont Eq 256 m); congruence. }
    pose proof (Zdigits2_mono 256 (Z.pos m) eq_refl) as Hmono.
    change (Zdigits2 256) with 9%Z in Hmono. lia.
Qed.

Lemma ltb_0_of_pos_class (x : float) :
  (Prim2SF x = S754_infinity false \/ exists m e, Prim2SF x = S754_finite false m e) ->
  (0 <? x) = true.
Proof.
  rewrite FloatAxioms.ltb_spec, Prim2SF_0. intros [->|(m & e & ->)]; reflexivity.
Qed.

(** For a width of at least 2^-1066 the section modulus is positive at every
    depth tried. *)
Lemma section_modulus_no_underflow (width d : float) :
  (0x1p-1066 <=? width) = true -> d ∈ depths ->
  Prim2SF (calculate_section_modulus width d) = S754_infinity false \/
  exists m e, Prim2SF (calculate_section_modulus width d) = S754_finite false m e.
Proof.
  intros Hw Hd. unfold calculate_section_modulus.
  destruct (magnitude_geb_spec _ _ (depths_square_magnitude d Hd)) as (m2 & e2 & H2 & Hm2).
  assert (Hp : Prim2SF (width * (d * d)) = S754_infinity false \/
               exists m e, Prim2SF (width * (d * d)) = S754_finite false m e /\
                           (-1070 <= Zdigits2 (Z.pos m) + e)%Z).
  { rewrite FloatAxioms.mul_spec, H2.
    destruct (ge_2_1066 width Hw) as [->|(mw & ew & -> & Hmw)]; [left; reflexivity|].
    destruct (SFmul_finite_pos prec emax false false mw m2 ew e2 eq_refl)
      as [H|(m & e & H & Hm)].
    - change (SpecFloat.emin prec emax) with (-1074)%Z. lia.
    - left. exact H.
    - right. exists m, e. split; [exact H|lia]. }
  rewrite FloatAxioms.div_spec, Prim2SF_6.
  destruct Hp as [->|(m & e & -> & Hm)]; [left; reflexivity|].
  destruct (SFdiv_finite_pos prec emax false false m 6755399441055744 e (-50) eq_refl)
    as [H|(m' & e' & H & _)].
  - change (SpecFloat.emin prec emax) with (-1074)%Z.
    change (Zdigits2 (Z.pos 6755399441055744)) with 53%Z. lia.
  - left. exact H.
  - right. exists m', e'. exact H.
Qed.

End NoUnderflow.

(** ** Signs of the design *)

Section DesignSigns.

Lemma fsign_neg (x : float) : (x <? 0) = true -> fsign x = Some true.
Proof.
  rewrite FloatAxioms.ltb_spec, Prim2SF_0. unfold fsign.
  destruct (Prim2SF x) as [[]|[]| |[] m e]; try reflexivity; discriminate.
Qed.

Lemma fsign_0 : fsign 0 = Some false.
Proof. reflexivity. Qed.

Lemma fsign_neg_0 : fsign (-0) = Some true.
Proof. reflexivity. Qed.

Lemma fsign_nan_mul (x y : float) : fsign x = None -> fsign (x * y) = None.
Proof.
  unfold fsign. rewrite FloatAxioms.mul_spec.
  destruct (Prim2SF x); try discriminate. reflexivity.
Qed.

Lemma fsign_nan_div (x y : float) : fsign x = None -> fsign (x / y) = None.
Proof.
  unfold fsign. rewrite FloatAxioms.div_spec.
  destruct (Prim2SF x); try discriminate. reflexivity.
Qed.

Lemma sign_or_nan_square (x : float) : sign_or_nan false (x * x).
Proof.
  destruct (fsign x) as [a|] eqn:E.
  - replace false with (xorb a a) by (destruct a; reflexivity).
    apply sign_or_nan_mul; right; exact E.
  - change false with (xorb false false). apply sign_or_nan_mul; left; exact E.
Qed.

(** The section modulus of a positive width at a depth tried is never
    negative and never a NaN. *)
Lemma fsign_section_modulus (width d : float) :
  (0 <? width) = true -> d ∈ depths ->
  fsign (calculate_section_modulus width d) = Some false.
Proof.
  intros Hw Hd. unfold calculate_section_modulus.
  destruct (depths_pos_finite d Hd) as [_ Hdd].
  apply andb_true_iff in Hdd as [Hdd1 Hdd2].
  destruct (pos_finite _ Hdd1 Hdd2) as (m & e & Hdd).
  apply (fsign_div_finite _ _ false false 6755399441055744 (-50)); [|exact Prim2SF_6].
  apply (fsign_mul_finite _ _ false false m e); [apply fsign_pos, Hw|exact Hdd].
Qed.

(** The stress has the sign of the load, or is a NaN. *)
Lemma sign_or_nan_stress (span load width d : float) (s : bool) :
  (0 <? width) = true -> d ∈ depths -> fsign load = Some s ->
  sign_or_nan s (stress_at width (moment_value load span) d).
Proof.
  intros Hw Hd Hl. unfold stress_at, calculate_stress, moment_value.
  replace s with (xorb (xorb (xorb s false) false) false) by (destruct s; reflexivity).
  apply sign_or_nan_div; [apply sign_or_nan_div|].
  - apply sign_or_nan_mul; [right; exact Hl|apply sign_or_nan_square].
  - right. reflexivity.
  - right. apply fsign_section_modulus; assumption.
Qed.

(** The signs of the fields of the design computed at a depth that passed
    the test. *)
Lemma solution_signs (span load width : float) (name : string) (mat : material)
    (d : float) (s : bool) :
  (0 <? span) = true -> (span <? infinity) = true -> (0 <? width) = true ->
  MATERIALS !! name = Some mat -> d ∈ depths -> fsign load = Some s ->
  passes width mat (moment_value load span) d = true ->
  let D := solution span width mat d (stress_at width (moment_value load span) d) in
  fsign (cost D) = Some false /\ fsign (stress D) = Some s /\
  fsign (safety_factor D) = Some s.
Proof.
  intros Hs Hsf Hw Hmat Hd Hl Hok. simpl.
  destruct (pos_finite _ Hs Hsf) as (ms & es & Hspan).
  destruct (depths_pos_finite d Hd) as [Hd1 _].
  apply andb_true_iff in Hd1 as [Hd1 Hd2].
  destruct (pos_finite _ Hd1 Hd2) as (md & ed & Hdf).
  destruct (cost_per_m3_finite _ _ Hmat) as (mc & ec & Hc).
  destruct (allowable_stress_finite _ _ Hmat) as (ma & ea & Ha).
  assert (Hsigma : fsign (stress_at width (moment_value load span) d) = Some s).
  { apply (sign_or_nan_passes _ (allowable_stress mat)); [|exact Hok].
    apply sign_or_nan_stress; assumption. }
  split; [|split].
  - apply (fsign_round _ 2 false _ _ power_of_ten_2).
    apply (fsign_mul_finite _ _ false false mc ec); [|exact Hc].
    apply (fsign_mul_finite _ _ false false ms es); [|exact Hspan].
    apply (fsign_mul_finite _ _ false false md ed); [apply fsign_pos, Hw|exact Hdf].
  - apply (fsign_round _ 2 s _ _ power_of_ten_2), Hsigma.
  - apply (fsign_round _ 2 s _ _ power_of_ten_2).
    apply (fsign_finite_div _ _ false s ma ea); [exact Ha|exact Hsigma].
Qed.

(** What [optimize_beam] returns is computed by the search. *)
Lemma optimize_beam_Some_inv (span load : float) (name : string) (width : float)
    (D : Design) :
  optimize_beam span load name width = Return (Some D) ->
  exists (mat : material) (d : float),
    MATERIALS !! name = Some mat /\ d ∈ depths /\
    passes width mat (moment_value load span) d = true /\
    D = solution span width mat d (stress_at width (moment_value load span) d).
Proof.
  intros H. destruct (MATERIALS !! name) as [mat|] eqn:Hmat;
    [|unfold optimize_beam in H; rewrite Hmat in H; discriminate].
  destruct (float_pow2_cases span) as [(Hsq & _)|[Hsq _]].
  - rewrite (optimize_beam_Raise _ _ _ _ _ Hmat Hsq) in H. discriminate.
  - rewrite (optimize_beam_Return _ _ _ _ _ Hmat Hsq) in H.
    apply Return_injective, scan_finds_iff in H as (i & d & Hi & Hok & _ & ->).
    exists mat, d. split; [reflexivity|].
    split; [apply list_elem_of_lookup; eauto|]. auto.
Qed.

End DesignSigns.

(** C7, as the claim states it, fails. A negative load gives a design of
    negative stress and negative safety factor; so does the load -0.0, whose
    safety factor is minus infinity; a negative span gives a negative cost, a
    negative width a negative stress, and an infinite span with a width that
    underflows gives a cost that is a NaN. *)
Lemma optimize_beam_negative_load :
  optimize_beam 5 (-20000) "Concrete" 0.3
  = Return (Some {| depth := 0.2; stress := -31250000; cost := 1500;
                    safety_factor := -0.16 |}) /\
  (-31250000 <? 0) = true /\ (-0.16 <? 0) = true /\
  optimize_beam 5 (-0) "Concrete" 0.3
  = Return (Some {| depth := 0.2; stress := -0; cost := 1500;
                    safety_factor := neg_infinity |}) /\
  (neg_infinity <? 0) = true /\
  optimize_beam (-5) 20000 "Concrete" 0.3
  = Return (Some {| depth := 0.5; stress := 5000000; cost := -3750;
                    safety_factor := 1 |}) /\
  (-3750 <? 0) = true /\
  optimize_beam 5 20000 "Concrete" (-0.3)
  = Return (Some {| depth := 0.2; stress := -31250000; cost := -1500;
                    safety_factor := -0.16 |}) /\
  optimize_beam infinity (-1) "Concrete" 0x1p-1074
  = Return (Some {| depth := 0.2; stress := neg_infinity; cost := nan;
                    safety_factor := -0 |}) /\
  (0 <=? nan) = false.
Proof. repeat split; vm_compute; reflexivity. Qed.

(** C7, amended. Every design returned by [optimize_beam] for a positive
    finite span and a positive width has a cost that is not negative; its
    stress and its safety factor are not negative when the load is positive
    or +0.0, and are not positive when the load is negative or -0.0. None of
    the three is a NaN. *)
Theorem optimize_beam_design_signs
    (span load : float) (name : string) (width : float) (D : Design) :
  (0 <? span) = true -> (span <? infinity) = true -> (0 <? width) = true ->
  optimize_beam span load name width = Return (Some D) ->
  (0 <=? cost D) = true /\
  ((0 <? load) = true \/ load = 0 ->
   (0 <=? stress D) = true /\ (0 <=? safety_factor D) = true) /\
  ((load <? 0) = true \/ load = -0 ->
   (stress D <=? 0) = true /\ (safety_factor D <=? 0) = true).
Proof.
  intros Hs Hsf Hw (mat & d & Hmat & Hd & Hok & ->)%optimize_beam_Some_inv.
  split; [|split].
  - destruct (fsign load) as [s|] eqn:Hl.
    + apply leb_0_of_fsign.
      apply (solution_signs span load width name mat d s); assumption.
    + exfalso. revert Hok. unfold passes. intros Hok.
      apply (ltb_true_not_nan _ _ Hok).
      unfold stress_at, calculate_stress, moment_value.
      apply fsign_nan_div, fsign_nan_div, fsign_nan_mul, Hl.
  - intros Hl.
    assert (Hl' : fsign load = Some false)
      by (destruct Hl as [Hl| ->]; [apply fsign_pos, Hl|reflexivity]).
    destruct (solution_signs span load width name mat d false Hs Hsf Hw Hmat Hd Hl' Hok)
      as (_ & H1 & H2).
    split; apply leb_0_of_fsign; assumption.
  - intros Hl.
    assert (Hl' : fsign load = Some true)
      by (destruct Hl as [Hl| ->]; [apply fsign_neg, Hl|reflexivity]).
    destruct (solution_signs span load width name mat d true Hs Hsf Hw Hmat Hd Hl' Hok)
      as (_ & H1 & H2).
    split; apply leb_of_fsign_neg; assumption.
Qed.

Lemma optimize_beam_design_signs_witness :
  ((0 <=? 3750) = true /\
   ((0 <? 20000) = true \/ 20000 = 0 ->
    (0 <=? 5000000) = true /\ (0 <=? 1) = true) /\
   ((20000 <? 0) = true \/ 20000 = -0 ->
    (5000000 <=? 0) = true /\ (1 <=? 0) = true)) /\
  ((0 <=? 1500) = true /\
   ((0 <? -20000) = true \/ -20000 = 0 ->
    (0 <=? -31250000) = true /\ (0 <=? -0.16) = true) /\
   ((-20000 <? 0) = true \/ -20000 = -0 ->
    (-31250000 <=? 0) = true /\ (-0.16 <=? 0) = true)).
Proof.
  split.
  - apply (optimize_beam_design_signs 5 20000 "Concrete" 0.3
             {| depth := 0.5; stress := 5000000; cost := 3750; safety_factor := 1 |});
      vm_compute; reflexivity.
  - apply (optimize_beam_design_signs 5 (-20000) "Concrete" 0.3
             {| depth := 0.2; stress := -31250000; cost := 1500;
                safety_factor := -0.16 |});
      vm_compute; reflexivity.
Defined.

(** ** A load of zero *)

Section ZeroLoad.

Lemma zero_ltb_finite (x y : float) (s : bool) (m : positive) (e : Z) :
  Prim2SF x = S754_zero s -> Prim2SF y = S754_finite false m e -> (x <? y) = true.
Proof.
  intros Hx Hy. rewrite FloatAxioms.ltb_spec, Hx, Hy. reflexivity.
Qed.

(** A square that is below the infinity is +0.0 or positive and finite, and
    squaring did not overflow. *)
Lemma square_lt_infinity (x : float) :
  (x * x <? infinity) = true ->
  float_pow2 x = Return (x * x) /\
  (Prim2SF (x * x) = S754_zero false \/
   exists m e, Prim2SF (x * x) = S754_finite false m e).
Proof.
  intros H.
  assert (Hc : Prim2SF (x * x) = S754_zero false \/
               exists m e, Prim2SF (x * x) = S754_finite false m e).
  { apply lt_infinity_cases; [|exact H].
    apply (sign_or_nan_passes _ infinity); [apply sign_or_nan_square|exact H]. }
  split; [|exact Hc].
  assert (Hi : is_infinity (x * x) = false).
  { unfold is_infinity. rewrite FloatAxioms.eqb_spec, FloatAxioms.abs_spec.
    destruct Hc as [->|(m & e & ->)]; reflexivity. }
  unfold float_pow2. rewrite Hi, andb_false_r. reflexivity.
Qed.

(** With a load of zero, of either sign, the moment is a zero. *)
Lemma moment_zero (load span : float) :
  (load =? 0) = true -> (span * span <? infinity) = true ->
  exists u, Prim2SF (moment_value load span) = S754_zero u.
Proof.
  intros [s Hl]%eqb_0_zero [_ Hsq]%square_lt_infinity. unfold moment_value.
  destruct (zero_mul load (span * span) s Hl Hsq) as [u Hu].
  apply (zero_div_pos _ _ u Hu). reflexivity.
Qed.

Lemma depths_head : depths !! 0%nat = Some 0.2.
Proof. reflexivity. Qed.

Lemma depths_tail_round (i : nat) (d : float) :
  depths !! S i = Some d -> (round d 3 =? 0.2) = false.
Proof.
  rewrite <- lookup_tail. intros H. apply negb_true_iff.
  apply (forallb_elem_of (fun d => negb (round d 3 =? 0.2)) (tail depths) d).
  - vm_compute. reflexivity.
  - apply list_elem_of_lookup. eauto.
Qed.

End ZeroLoad.

(** C8, as the claim states it, fails. With a load of zero, a span of 5 and
    the positive width 2^-1074 the section modulus underflows to zero at
    every depth, every stress is the NaN of 0/0, no test passes and the
    result is [None]; with the width 2^-1068 it is zero up to the depth 0.23
    and the design returned has depth 0.24; with a span of 1e200 the call
    raises [OverflowError], and with an infinite span it returns [None]. *)
Lemma optimize_beam_zero_load_underflow :
  (0 <? 5) = true /\ (0 <? 0x1p-1074) = true /\ (0 <? 0x1p-1068) = true /\
  MATERIALS !! "Concrete" = Some Concrete /\
  optimize_beam 5 0 "Concrete" 0x1p-1074 = Return None /\
  optimize_beam 5 0 "Concrete" 0x1p-1068
  = Return (Some {| depth := 0.24; stress := 0; cost := 0;
                    safety_factor := infinity |}) /\
  (0 <? 1e200) = true /\
  optimize_beam 1e200 0 "Concrete" 0.3 = Raise OverflowError /\
  (0 <? infinity) = true /\
  optimize_beam infinity 0 "Concrete" 0.3 = Return None.
Proof. repeat split; vm_compute; reflexivity. Qed.

(** C8, amended. For a positive span whose square is finite, a positive
    width, a material of the catalog and a load of zero, of either sign,
    [optimize_beam] returns a design of depth 0.20 and stress zero exactly
    when the section modulus of the first depth, [width * 0.2^2 / 6] in
    binary64, has not underflowed to zero; that is so for every width of at
    least 2^-1066. *)
Theorem optimize_beam_zero_load
    (span load : float) (name : string) (width : float) (mat : material) :
  (0 <? span) = true -> (span * span <? infinity) = true -> (0 <? width) = true ->
  MATERIALS !! name = Some mat -> (load =? 0) = true ->
  ((exists D : Design,
      optimize_beam span load name width = Return (Some D) /\
      depth D = 0.2 /\ (stress D =? 0) = true) <->
   (0 <? calculate_section_modulus width 0.2) = true) /\
  ((0x1p-1066 <=? width) = true ->
   (0 <? calculate_section_modulus width 0.2) = true).
Proof.
  intros _ Hsq Hw Hmat Hl.
  destruct (square_lt_infinity span Hsq) as [Hpow _].
  destruct (moment_zero load span Hl Hsq) as [u Hu].
  destruct (allowable_stress_finite _ _ Hmat) as (ma & ea & Ha).
  assert (H02 : 0.2 ∈ depths) by (apply list_elem_of_lookup; exists 0%nat; reflexivity).
  rewrite (optimize_beam_Return _ _ _ _ _ Hmat Hpow).
  split; [split|].
  - intros (D & (i & d & Hi & Hok & _ & ->)%Return_injective%scan_finds_iff & Hdepth & _).
    destruct i as [|i].
    + rewrite depths_head in Hi. injection Hi as <-.
      pose proof (fsign_section_modulus width 0.2 Hw H02) as HZ.
      unfold passes, stress_at, calculate_stress in Hok.
      rewrite FloatAxioms.ltb_spec, FloatAxioms.div_spec, Hu in Hok.
      rewrite FloatAxioms.ltb_spec, Prim2SF_0. unfold fsign in HZ.
      destruct (Prim2SF (calculate_section_modulus width 0.2)) as [s|s| |s m e];
        simpl in HZ; try discriminate HZ; injection HZ as ->; try reflexivity.
      change (SFdiv prec emax (S754_zero u) (S754_zero false)) with S754_nan in Hok.
      rewrite SFltb_nan_l in Hok. discriminate Hok.
    + simpl in Hdepth. pose proof (depths_tail_round i d Hi) as Hne.
      rewrite Hdepth in Hne. discriminate Hne.
  - intros HZ.
    destruct (zero_div_pos _ _ u Hu HZ) as [v Hv].
    fold (calculate_stress (moment_value load span) (calculate_section_modulus width 0.2)) in Hv.
    fold (stress_at width (moment_value load span) 0.2) in Hv.
    eexists. split; [|split].
    + f_equal. apply scan_finds_iff. exists 0%nat, 0.2.
      split; [exact depths_head|].
      split; [exact (zero_ltb_finite _ _ v ma ea Hv Ha)|].
      split; [intros j c Hj; lia|reflexivity].
    + reflexivity.
    + simpl. destruct (round_zero _ v 2 _ _ power_of_ten_2 Hv) as [t Ht].
      exact (zero_eqb_0 _ t Ht).
  - intros Hmin. apply ltb_0_of_pos_class, section_modulus_no_underflow; assumption.
Qed.

Lemma optimize_beam_zero_load_witness :
  ((exists D : Design,
      optimize_beam 5 0 "Concrete" 0.3 = Return (Some D) /\
      depth D = 0.2 /\ (stress D =? 0) = true) <->
   (0 <? calculate_section_modulus 0.3 0.2) = true) /\
  ((0x1p-1066 <=? 0.3) = true ->
   (0 <? calculate_section_modulus 0.3 0.2) = true).
Proof.
  apply (optimize_beam_zero_load 5 0 "Concrete" 0.3 Concrete); reflexivity.
Defined.

(** C9, as the claim states it, fails. For the positive width 2^-1074 the
    section modulus is zero at every depth tried, and for the width 2^-1068
    it is zero at the first depth; the division then has a zero divisor and
    gives an infinity, or the NaN of 0/0, without raising. *)
Lemma section_modulus_underflow :
  (0 <? 0x1p-1074) = true /\
  forallb (fun d => calculate_section_modulus 0x1p-1074 d =? 0) depths = true /\
  (0 <? 0x1p-1068) = true /\
  (calculate_section_modulus 0x1p-1068 0.2 =? 0) = true /\
  calculate_stress 62500 (calculate_section_modulus 0x1p-1074 0.2) = infinity /\
  is_nan (calculate_stress 0 (calculate_section_modulus 0x1p-1074 0.2)) = true /\
  optimize_beam 5 20000 "Concrete" 0x1p-1074 = Return None.
Proof. repeat split; vm_compute; reflexivity. Qed.

(** C9, amended. For every width of at least 2^-1066, every depth tried is at
    least 0.2 and positive, and the section modulus is strictly positive at
    every iteration of the loop, so that the divisor of the stress is never
    zero. *)
Theorem stress_divisor_never_zero (width moment d : float) :
  (0x1p-1066 <=? width) = true -> d ∈ depths ->
  (0.2 <=? d) = true /\ (0 <? d) = true /\
  (0 <? calculate_section_modulus width d) = true /\
  (calculate_section_modulus width d =? 0) = false /\
  stress_at width moment d = moment / calculate_section_modulus width d.
Proof.
  intros Hw Hd.
  destruct (depths_range d Hd) as [Hlo _].
  destruct (depths_pos_finite d Hd) as [[Hpos _]%andb_true_iff _].
  pose proof (section_modulus_no_underflow width d Hw Hd) as HZ.
  repeat split; try assumption.
  - apply ltb_0_of_pos_class, HZ.
  - rewrite FloatAxioms.eqb_spec, Prim2SF_0.
    destruct HZ as [->|(m & e & ->)]; reflexivity.
Qed.

Lemma stress_divisor_never_zero_witness :
  (0.2 <=? 0.2) = true /\ (0 <? 0.2) = true /\
  (0 <? calculate_section_modulus 0.3 0.2) = true /\
  (calculate_section_modulus 0.3 0.2 =? 0) = false /\
  stress_at 0.3 62500 0.2 = 62500 / calculate_section_modulus 0.3 0.2.
Proof.
  apply (stress_divisor_never_zero 0.3 62500 0.2); [reflexivity|].
  apply list_elem_of_lookup. exists 0%nat. reflexivity.
Defined.

(** ** A width of zero *)

Section ZeroWidth.

(** With the width +0.0 the section modulus is +0.0 at every depth tried. *)
Lemma section_modulus_zero_width (d : float) :
  d ∈ depths -> Prim2SF (calculate_section_modulus 0 d) = S754_zero false.
Proof.
  intros Hd. destruct (depths_pos_finite d Hd) as [_ [H1 H2]%andb_true_iff].
  destruct (pos_finite _ H1 H2) as (m & e & Hdd).
  unfold calculate_section_modulus.
  rewrite FloatAxioms.div_spec, FloatAxioms.mul_spec, Prim2SF_0, Hdd, Prim2SF_6.
  reflexivity.
Qed.

(** A quotient by +0.0 is the infinity of the sign of the dividend, or a
    NaN. *)
Lemma div_zero_class (x z : float) :
  Prim2SF z = S754_zero false ->
  Prim2SF (x / z) = S754_nan \/
  exists s, fsign x = Some s /\ Prim2SF (x / z) = S754_infinity s.
Proof.
  intros Hz. rewrite FloatAxioms.div_spec, Hz. unfold fsign.
  destruct (Prim2SF x) as [s|s| |s m e]; simpl; eauto.
  - right. exists s. destruct s; auto.
  - right. exists s. destruct s; auto.
Qed.

(** A moment that is not negative: the load is +0.0, -0.0 or positive. *)
Lemma moment_nonneg_class (load span : float) :
  (0 <=? load) = true ->
  fsign (moment_value load span) <> Some true \/
  exists u, Prim2SF (moment_value load span) = S754_zero u.
Proof.
  intros Hl. unfold moment_value.
  rewrite FloatAxioms.leb_spec, Prim2SF_0 in Hl.
  destruct (Prim2SF load) as [s|s| |s m e] eqn:E.
  - assert (H : Prim2SF (load * (span * span)) = S754_nan \/
                exists u, Prim2SF (load * (span * span)) = S754_zero u).
    { rewrite FloatAxioms.mul_spec, E.
      destruct (Prim2SF (span * span)); simpl; eauto. }
    destruct H as [H|[u H]].
    + left. unfold fsign. rewrite FloatAxioms.div_spec, H. discriminate.
    + right. rewrite FloatAxioms.div_spec, H, Prim2SF_8. simpl. eauto.
  - destruct s; [discriminate Hl|]. left.
    assert (H : sign_or_nan false (load * (span * span) / 8)).
    { change false with (xorb (xorb false false) false).
      apply sign_or_nan_div; [apply sign_or_nan_mul|right; reflexivity].
      - right. unfold fsign. rewrite E. reflexivity.
      - apply sign_or_nan_square. }
    destruct H as [H|H]; rewrite H; discriminate.
  - discriminate Hl.
  - destruct s; [discriminate Hl|]. left.
    assert (H : sign_or_nan false (load * (span * span) / 8)).
    { change false with (xorb (xorb false false) false).
      apply sign_or_nan_div; [apply sign_or_nan_mul|right; reflexivity].
      - right. unfold fsign. rewrite E. reflexivity.
      - apply sign_or_nan_square. }
    destruct H as [H|H]; rewrite H; discriminate.
Qed.

End ZeroWidth.

(** With the width +0.0, a load that is not negative and a material of
    the catalog, when the square of the span does not overflow: the section
    modulus is +0.0 at every depth tried, the division does not raise and
    gives the infinity or a NaN, no depth passes the test and
    [optimize_beam] returns [None]. With the width -0.0 the quotient is
    minus the infinity, which passes, and a design is returned. *)
Theorem optimize_beam_zero_width
    (span load : float) (name : string) (mat : material) :
  MATERIALS !! name = Some mat -> (0 <=? load) = true ->
  float_pow2 span = Return (span * span) ->
  (forall d : float,
     d ∈ depths ->
     Prim2SF (calculate_section_modulus 0 d) = S754_zero false /\
     (Prim2SF (stress_at 0 (moment_value load span) d) = S754_infinity false \/
      Prim2SF (stress_at 0 (moment_value load span) d) = S754_nan) /\
     passes 0 mat (moment_value load span) d = false) /\
  optimize_beam span load name 0 = Return None /\
  optimize_beam 5 20000 "Concrete" (-0)
  = Return (Some {| depth := 0.2; stress := neg_infinity; cost := -0;
                    safety_factor := -0 |}).
Proof.
  intros Hmat Hl Hsq.
  assert (Hall : forall d : float,
     d ∈ depths ->
     Prim2SF (calculate_section_modulus 0 d) = S754_zero false /\
     (Prim2SF (stress_at 0 (moment_value load span) d) = S754_infinity false \/
      Prim2SF (stress_at 0 (moment_value load span) d) = S754_nan) /\
     passes 0 mat (moment_value load span) d = false).
  { intros d Hd. pose proof (section_modulus_zero_width d Hd) as HZ.
    split; [exact HZ|].
    assert (Hc : Prim2SF (stress_at 0 (moment_value load span) d) = S754_infinity false \/
                 Prim2SF (stress_at 0 (moment_value load span) d) = S754_nan).
    { unfold stress_at, calculate_stress.
      destruct (div_zero_class (moment_value load span) _ HZ) as [H|(s & Hs & H)];
        [right; exact H|].
      destruct (moment_nonneg_class load span Hl) as [Hm|[u Hu]].
      - destruct s; [congruence|left; exact H].
      - right. rewrite FloatAxioms.div_spec, Hu, HZ. reflexivity. }
    split; [exact Hc|].
    unfold passes. rewrite FloatAxioms.ltb_spec.
    destruct Hc as [-> | ->]; [apply SFltb_pos_inf_l|reflexivity]. }
  split; [exact Hall|]. split; [|vm_compute; reflexivity].
  rewrite (optimize_beam_Return _ _ _ _ _ Hmat Hsq). f_equal.
  apply scan_finds_nothing_iff. intros d Hd. apply Hall, Hd.
Qed.

Lemma optimize_beam_zero_width_witness :
  optimize_beam 5 20000 "Steel" 0 = Return None.
Proof.
  refine (proj1 (proj2 (optimize_beam_zero_width 5 20000 "Steel" Steel _ _ _)));
    reflexivity.
Defined.

End Binary64Facts.
